(** * nipype: path splitting, cache tokens, file placement and RAM estimation

    A shallow embedding of [nipype/utils/filemanip.py] and
    [nipype/utils/ram_estimator.py], with the properties that the
    specification states about them.

    Conventions of the embedding:
    - a Python [str] is a list of characters ([list ascii]); slices [p[:i]]
      and [p[i:]] are [take] and [drop];
    - Python integers are [Z]; an index returned by [str.rfind] is [-1] when
      the character is absent, as in Python;
    - Python numbers that take part in the RAM estimate ([int], [float],
      [bool]) are read as exact rationals ([Q]); two numbers are "equal" in the
      sense of Python's [==], which is [Qeq]; the rounding of floating-point
      arithmetic is outside the model;
    - a raised exception is a value [Raise e] of the [result] type;
    - the file system and the logger are explicit state. *)

From Stdlib Require Import ZArith QArith Qminmax Lqa Lia Ascii String List Bool.
From stdpp Require Import base option gmap strings list.
Import ListNotations.

(** ** Python values shared by both modules *)

Abbreviation str := (list ascii).

(** A string literal as a Python [str]. *)
Definition lit (s : string) : str := list_ascii_of_string s.

Inductive exn :=
| IOError (errno : str)          (* failure of open/read/write *)
| OSError (errno : str)          (* failure of unlink/symlink *)
| ShutilError (msg : str)        (* shutil.Error *)
| IndexError                     (* sequence index out of range *)
| TypeError                      (* operation on a value of the wrong type *)
| RecursionError.                (* call depth exhausted *)

Inductive result (A : Type) :=
| Ok (a : A)
| Raise (e : exn).
Arguments Ok {A} a.
Arguments Raise {A} e.

(** ** String primitives of Python used by the source *)

Definition sep : ascii := "/".
Definition extsep : ascii := ".".

(** [p.rfind(c)]: index of the last occurrence of [c], or [-1]. *)
Fixpoint rfind (c : ascii) (p : str) : Z :=
  match p with
  | [] => (-1)%Z
  | x :: r =>
      let i := rfind c r in
      if (0 <=? i)%Z then (i + 1)%Z
      else if decide (x = c) then 0%Z else (-1)%Z
  end.

(** [p.rstrip(c)]: [p] without its trailing run of [c]. *)
Fixpoint rstrip (c : ascii) (p : str) : str :=
  match p with
  | [] => []
  | x :: r =>
      match rstrip c r with
      | [] => if decide (x = c) then [] else [x]
      | r' => x :: r'
      end
  end.

(** [p[a:b]] for [0 <= a]. *)
Definition slice (a b : Z) (p : str) : str :=
  take (Z.to_nat (b - a)) (drop (Z.to_nat a) p).

(** [p.startswith(q)] and [p.endswith(q)]. *)
Definition startswith (q p : str) : bool := bool_decide (take (length q) p = q).
Definition endswith (q p : str) : bool :=
  bool_decide (length q <= length p /\ drop (length p - length q) p = q).

(** ** posixpath *)

(** [os.path.split]: everything up to the last separator, and what follows
    it; the head loses its trailing separators unless it consists of
    separators only. *)
Definition os_path_split (p : str) : str * str :=
  let i := Z.to_nat (rfind sep p + 1) in
  let head := take i p in
  let tail := drop i p in
  let head :=
    if bool_decide (head <> []) && bool_decide (head <> replicate (length head) sep)
    then rstrip sep head else head in
  (head, tail).

(** [os.path.splitext]: the extension starts at the last dot, provided the
    dot comes after the last separator and some character other than a dot
    stands between that separator and the dot (leading dots are skipped). *)
Definition os_path_splitext (p : str) : str * str :=
  let sepIndex := rfind sep p in
  let dotIndex := rfind extsep p in
  if (sepIndex <? dotIndex)%Z then
    let filenameIndex := (sepIndex + 1)%Z in
    if existsb (fun c => bool_decide (c <> extsep)) (slice filenameIndex dotIndex p)
    then (take (Z.to_nat dotIndex) p, drop (Z.to_nat dotIndex) p)
    else (p, [])
  else (p, []).

(** [os.path.join(a, b)]. *)
Definition os_path_join (a b : str) : str :=
  if startswith [sep] b then b
  else if bool_decide (a = []) || endswith [sep] a then a ++ b
  else a ++ sep :: b.

(** ** filemanip: split_filename, fname_presuffix, hash_rename *)

(** The [while tmp:] loop of [split_filename]: strip one extension per
    turn, appending each (also the final empty one) to [ext]. Every turn
    that goes on shortens [fname], so [S (length fname)] turns are enough
    ([split_ext_loop_enough] below). *)
Fixpoint split_ext_loop (fuel : nat) (fname : str) (ext : list str) : str * list str :=
  match fuel with
  | 0 => (fname, ext)
  | S n =>
      let '(fname', tmp) := os_path_splitext fname in
      let ext' := ext ++ [tmp] in
      match tmp with
      | [] => (fname', ext')
      | _ => split_ext_loop n fname' ext'
      end
  end.

Definition split_filename (fname : str) : str * str * str :=
  let '(pth, fname) := os_path_split fname in
  let '(fname, ext) := split_ext_loop (S (length fname)) fname [] in
  (pth, fname, concat (reverse ext)).

Section Presuffix.
(** [os.path.abspath] depends on the working directory of the process. *)
Variable abspath : str -> str.

Definition fname_presuffix (fname prefix suffix : str) (newpath : option str)
    (use_ext : bool) : str :=
  let '(pth, fname, ext) := split_filename fname in
  let ext := if use_ext then ext else [] in
  let pth := match newpath with
             | Some (c :: np) => abspath (c :: np)
             | _ => pth
             end in
  os_path_join pth (prefix ++ fname ++ suffix ++ ext).

Definition fnames_presuffix (fnames : list str) (prefix suffix : str)
    (newpath : option str) (use_ext : bool) : list str :=
  map (fun fname => fname_presuffix fname prefix suffix newpath use_ext) fnames.
End Presuffix.

Definition hash_rename (filename hash : str) : str :=
  let '(path, name, ext) := split_filename filename in
  let newfilename := name ++ lit "_0x" ++ hash ++ ext in
  os_path_join path newfilename.

(** ** filemanip: check_forhash *)

(** The character class [[a-z0-9]]. *)
Definition is_hash_char (c : ascii) : bool :=
  let n := nat_of_ascii c in
  ((97 <=? n)%nat && (n <=? 122)%nat) || ((48 <=? n)%nat && (n <=? 57)%nat).

(** The pattern [(_0x[a-z0-9]{32})] matched at the very start of [s]; the
    group is the 35 characters matched. *)
Definition match_here (s : str) : option str :=
  let body := take 32 (drop 3 s) in
  if bool_decide (take 3 s = lit "_0x") && bool_decide (length body = 32)
     && forallb is_hash_char body
  then Some (take 35 s) else None.

(** [re.search]: the leftmost match. *)
Fixpoint re_search (s : str) : option str :=
  match match_here s with
  | Some m => Some m
  | None => match s with
            | [] => None
            | _ :: r => re_search r
            end
  end.

(** [re.findall]: the matches from left to right, none overlapping the one
    before: the next [skip] characters belong to the match just reported. *)
Fixpoint re_findall_from (skip : nat) (s : str) : list str :=
  match s with
  | [] => []
  | _ :: r =>
      match skip with
      | S k => re_findall_from k r
      | 0 => match match_here s with
             | Some m => m :: re_findall_from 34 r
             | None => re_findall_from 0 r
             end
      end
  end.

Definition re_findall (s : str) : list str := re_findall_from 0 s.

(** The argument of [check_forhash]: one name, or a list of names. *)
Inductive filename_arg :=
| Name (f : str)
| NameList (l : list str).

Definition check_forhash (filename : filename_arg) : result (bool * option (list str)) :=
  let first :=
    match filename with
    | Name f => Ok f
    | NameList (f :: _) => Ok f
    | NameList [] => Raise IndexError
    end in
  match first with
  | Raise e => Raise e
  | Ok filename =>
      let '(path, name) := os_path_split filename in
      match re_search name with
      | Some _ => Ok (true, Some (re_findall name))
      | None => Ok (false, None)
      end
  end.

(** ** filemanip: filename_to_list, list_to_filename *)

(** What callers pass where a path or several paths are expected. *)
Inductive path_arg :=
| OnePath (s : str)                 (* str, unicode *)
| PathList (l : list str)           (* list *)
| Container (items : list str)      (* another iterable, in iteration order *)
| NoContainer.                      (* anything else *)

Definition filename_to_list (filename : path_arg) : option (list str) :=
  match filename with
  | OnePath s => Some [s]
  | PathList l => Some l
  | Container items => Some items
  | NoContainer => None
  end.

(** The result is the list itself ([inr]) or its first element ([inl]). *)
Definition list_to_filename (filelist : list str) : result (str + list str) :=
  if decide (1 < length filelist) then Ok (inr filelist)
  else match filelist with
       | x :: _ => Ok (inl x)
       | [] => Raise IndexError
       end.

(** ** The file system and the logger

    A path names a node directly: the nodes below a directory and link
    targets relative to the directory of the link are outside the model.
    What the environment decides on its own (permissions, a full disk, a
    failing device) is the [io_fault] of the platform: the error number
    with which touching a path fails. *)

Inductive node :=
| File (data : str)
| Symlink (target : str)
| Directory.

Inductive log_record :=
| WarnOverwrite (newfile originalfile : str) (copy : bool)
| WarnMessage (msg : str).

Record world := World {
  files : gmap str node;
  warnings : list log_record
}.

Record platform := Platform {
  posix : bool;                     (* os.name is 'posix' *)
  io_fault : str -> option str
}.

(** Code that changes the world and may raise: the world it leaves behind
    is kept also when it raises. *)
Definition M (A : Type) : Type := world -> result A * world.

Definition ret {A} (a : A) : M A := fun w => (Ok a, w).
Definition raise {A} (e : exn) : M A := fun w => (Raise e, w).
Definition bindM {A B} (m : M A) (k : A -> M B) : M B :=
  fun w =>
    match m w with
    | (Ok a, w') => k a w'
    | (Raise e, w') => (Raise e, w')
    end.

Notation "'do' x <- m ; k" := (bindM m (fun x => k))
  (at level 10, x name, m at level 100, k at level 200, only parsing).

Definition with_files (w : world) (fs : gmap str node) : world :=
  {| files := fs; warnings := warnings w |}.

(** [fmlogger.warn]. *)
Definition warn (r : log_record) : M unit :=
  fun w => (Ok tt, {| files := files w; warnings := warnings w ++ [r] |}).

Definition MAXSYMLINKS : nat := 40.

(** The node a path leads to after its symbolic links are followed;
    [None] when there are too many of them. The path found need not exist. *)
Fixpoint follow (fuel : nat) (fs : gmap str node) (p : str) : option str :=
  match fs !! p with
  | Some (Symlink t) =>
      match fuel with
      | 0 => None
      | S n => follow n fs t
      end
  | _ => Some p
  end.

(** [os.stat]: the node found, with the path that identifies it. *)
Definition stat (fs : gmap str node) (p : str) : option (str * node) :=
  match follow MAXSYMLINKS fs p with
  | Some q => match fs !! q with
              | Some n => Some (q, n)
              | None => None
              end
  | None => None
  end.

Definition os_path_lexists (w : world) (p : str) : bool :=
  bool_decide (is_Some (files w !! p)).

Definition os_path_exists (w : world) (p : str) : bool :=
  bool_decide (is_Some (stat (files w) p)).

(** [shutil._samefile]: both paths lead to one and the same node. *)
Definition samefile (fs : gmap str node) (src dst : str) : bool :=
  match stat fs src, stat fs dst with
  | Some (q1, _), Some (q2, _) => bool_decide (q1 = q2)
  | _, _ => false
  end.

(** The bytes a path gives when read, if it leads to a regular file. *)
Definition read_file (fs : gmap str node) (p : str) : option str :=
  match stat fs p with
  | Some (_, File data) => Some data
  | _ => None
  end.

Section Materializer.
Variable pf : platform.

Definition os_unlink (p : str) : M unit :=
  fun w =>
    match io_fault pf p with
    | Some e => (Raise (OSError e), w)
    | None =>
        match files w !! p with
        | None => (Raise (OSError (lit "ENOENT")), w)
        | Some Directory => (Raise (OSError (lit "EISDIR")), w)
        | Some _ => (Ok tt, with_files w (delete p (files w)))
        end
    end.

Definition os_symlink (src dst : str) : M unit :=
  fun w =>
    match io_fault pf dst with
    | Some e => (Raise (OSError e), w)
    | None =>
        match files w !! dst with
        | Some _ => (Raise (OSError (lit "EEXIST")), w)
        | None => (Ok tt, with_files w (<[dst := Symlink src]> (files w)))
        end
    end.

(** [open(src, 'rb').read()]. *)
Definition open_read (src : str) : M str :=
  fun w =>
    match io_fault pf src with
    | Some e => (Raise (IOError e), w)
    | None =>
        match stat (files w) src with
        | Some (_, File data) => (Ok data, w)
        | Some (_, Directory) => (Raise (IOError (lit "EISDIR")), w)
        | _ => (Raise (IOError (lit "ENOENT")), w)
        end
    end.

(** [open(dst, 'wb').write(data)]: written through the links of [dst]. *)
Definition open_write (dst data : str) : M unit :=
  fun w =>
    match io_fault pf dst with
    | Some e => (Raise (IOError e), w)
    | None =>
        match follow MAXSYMLINKS (files w) dst with
        | None => (Raise (IOError (lit "ELOOP")), w)
        | Some q =>
            match files w !! q with
            | Some Directory => (Raise (IOError (lit "EISDIR")), w)
            | _ => (Ok tt, with_files w (<[q := File data]> (files w)))
            end
        end
    end.

(** [shutil.copyfile]: [shutil.Error] when both names are the same file,
    [IOError] when the source cannot be read or the destination written. *)
Definition shutil_copyfile (src dst : str) : M unit :=
  fun w =>
    if samefile (files w) src dst
    then (Raise (ShutilError (lit "`" ++ src ++ lit "` and `" ++ dst
                              ++ lit "` are the same file")), w)
    else (do data <- open_read src; open_write dst data) w.

(** The warning of [copyfile] when [newfile] is there already. *)
Definition overwrite_warning (originalfile newfile : str) (copy : bool) : M unit :=
  fun w =>
    if os_path_lexists w newfile
    then warn (WarnOverwrite newfile originalfile copy) w
    else ret tt w.

(** [shutil.copyfile] inside [try: ... except shutil.Error, e:], where the
    message of the error is logged as a warning. *)
Definition try_shutil_copyfile (originalfile newfile : str) : M unit :=
  fun w =>
    match shutil_copyfile originalfile newfile w with
    | (Raise (ShutilError msg), w') => warn (WarnMessage msg) w'
    | r => r
    end.

(** The part of [copyfile] that places one file: the warning, then the
    link or the copy. *)
Definition place (originalfile newfile : str) (copy : bool) : M unit :=
  do _ <- overwrite_warning originalfile newfile copy;
  if posix pf && negb copy then
    do _ <- (fun w => if os_path_lexists w newfile
                      then os_unlink newfile w else ret tt w);
    os_symlink originalfile newfile
  else try_shutil_copyfile originalfile newfile.

(** [s[:-4]]. *)
Definition drop_last4 (s : str) : str := take (length s - 4) s.

(** [copyfile]; [depth] bounds the nesting of its calls to itself. A call
    for a [.hdr] or [.mat] file makes no further call, so a depth of 2
    is never exhausted ([copyfile_depth] below). *)
Fixpoint copyfile (depth : nat) (originalfile newfile : str) (copy : bool) : M unit :=
  match depth with
  | 0 => raise RecursionError
  | S d =>
      do _ <- place originalfile newfile copy;
      if endswith (lit ".img") originalfile then
        let hdrofile := drop_last4 originalfile ++ lit ".hdr" in
        let hdrnfile := drop_last4 newfile ++ lit ".hdr" in
        let matofile := drop_last4 originalfile ++ lit ".mat" in
        do _ <- (fun w => if os_path_exists w matofile
                          then let matnfile := drop_last4 newfile ++ lit ".mat" in
                               copyfile d matofile matnfile copy w
                          else ret tt w);
        copyfile d hdrofile hdrnfile copy
      else ret tt
  end.

Variable abspath : str -> str.

(** The loop of [copyfiles] over [enumerate(filelist)], from index [i]. *)
Fixpoint copyfiles_loop (outfiles : option (list str)) (copy : bool)
    (i : nat) (filelist newfiles : list str) : M (list str) :=
  match filelist with
  | [] => ret newfiles
  | f :: rest =>
      match outfiles with
      | None => raise TypeError
      | Some outs =>
          let destfile :=
            if decide (1 < length outs) then outs !! i
            else match outs with
                 | o :: _ => Some (fname_presuffix abspath f [] [] (Some o) true)
                 | [] => None
                 end in
          match destfile with
          | None => raise IndexError
          | Some destfile =>
              do _ <- copyfile 2 f destfile copy;
              copyfiles_loop outfiles copy (S i) rest (newfiles ++ [destfile])
          end
      end
  end.

Definition copyfiles (filelist dest : path_arg) (copy : bool) : M (list str) :=
  let outfiles := filename_to_list dest in
  match filename_to_list filelist with
  | None => raise TypeError
  | Some fl => copyfiles_loop outfiles copy 0 fl []
  end.
End Materializer.

(** ** filemanip: hash_infile *)

(** [os.path.isfile]. *)
Definition os_path_isfile (w : world) (p : str) : bool :=
  match stat (files w) p with
  | Some (_, File _) => true
  | _ => false
  end.

(** [fp.read(n)] on what is left of the file: all of it for a negative
    [n], else at most [n] characters; with what is left after it. *)
Definition fp_read (n : Z) (rest : str) : str * str :=
  if (n <? 0)%Z then (rest, [])
  else (take (Z.to_nat n) rest, drop (Z.to_nat n) rest).

Section Hashing.
Variable pf : platform.

(** [hashlib.md5]: a fresh object, [update] and [hexdigest]. *)
Variable md5_state : Type.
Variable md5 : md5_state.
Variable md5_update : md5_state -> str -> md5_state.
Variable md5_hexdigest : md5_state -> str.

(** The [while True:] loop of [hash_infile]; it ends on an empty read. A
    turn that goes on has read a character, so [S (length rest)] turns
    are enough. *)
Fixpoint hash_loop (fuel : nat) (chunk_len : Z) (rest : str) (md5obj : md5_state)
    : md5_state :=
  match fuel with
  | 0 => md5obj
  | S n =>
      let '(data, rest') := fp_read chunk_len rest in
      match data with
      | [] => md5obj
      | _ => hash_loop n chunk_len rest' (md5_update md5obj data)
      end
  end.

Definition hash_infile (afile : str) (chunk_len : Z) : M (option str) :=
  fun w =>
    if os_path_isfile w afile then
      match open_read pf afile w with
      | (Ok content, w') =>
          let md5obj := hash_loop (S (length content)) chunk_len content md5 in
          (Ok (Some (md5_hexdigest md5obj)), w')
      | (Raise e, w') => (Raise e, w')
      end
    else (Ok None, w).
End Hashing.

(** ** ram_estimator: the values of node inputs *)

(** One Python object that is not a list or a tuple. *)
Inductive scalar :=
| SStr (s : str)
| SInt (z : Z)
| SFloat (q : Q)
| SBool (b : bool)
| SNone
| SObject (tyname : str).       (* any other object, with [type(v).__name__] *)

(** The value of an input trait. *)
Inductive pyval :=
| Undefined                     (* the trait was never set *)
| Scalar (x : scalar)
| PyList (l : list scalar)
| PyTuple (l : list scalar).

(** [isinstance(v, str)]. *)
Definition is_str (x : scalar) : bool :=
  match x with
  | SStr _ => true
  | _ => false
  end.

(** [float(v)] where [isinstance(v, (int, float))] holds; [bool] is a
    subclass of [int]. *)
Definition as_number (x : scalar) : option Q :=
  match x with
  | SInt z => Some (inject_Z z)
  | SFloat q => Some q
  | SBool b => Some (if b then 1 else 0)%Q
  | _ => None
  end.

Definition strings_of (l : list scalar) : list str :=
  omap (fun x => match x with SStr s => Some s | _ => None end) l.

(** [sum(float(v) for v in values)]. *)
Definition sum_floats (values : list Q) : Q := fold_left Qplus values 0%Q.

(** [type(val).__name__] *)
Definition type_name (val : pyval) : str :=
  match val with
  | Undefined => lit "_Undefined"
  | Scalar (SStr _) => lit "str"
  | Scalar (SInt _) => lit "int"
  | Scalar (SFloat _) => lit "float"
  | Scalar (SBool _) => lit "bool"
  | Scalar SNone => lit "NoneType"
  | Scalar (SObject n) => n
  | PyList _ => lit "list"
  | PyTuple _ => lit "tuple"
  end.

(** What a path holds, as far as the estimator can tell. *)
Inductive image_file :=
| Missing                       (* os.path.exists is False *)
| Unreadable                    (* nib.load raises *)
| Image (shape : list Z).       (* img.header.get_data_shape() *)

(** One entry of [debug_lines]. *)
Inductive debug_line :=
| TraitNotFound (attr : str)
| UndefinedLine (attr : str)
| VoxelsLine (attr : str) (vox_total : Z) (multiplier contribution : Q)
| NoReadableLine (attr : str)
| ValuesLine (attr : str) (values : list scalar) (multiplier contribution : Q)
| UnsupportedLine (attr : str) (tyname : str)
| OverheadLine (overhead_gb mem_gb : Q)
| ClampLine (mem_gb : Q).

(** ** ram_estimator: RamEstimator *)

Record RamEstimator := {
  input_multipliers : list (str * Q);     (* a dict, in insertion order *)
  overhead_gb : Q;
  min_gb : option Q;
  max_gb : option Q
}.

(** [RamEstimator.__init__] with its defaults. *)
Definition RamEstimator_init (input_multipliers : option (list (str * Q)))
    (overhead_gb : option Q) (min_gb max_gb : option (option Q)) : RamEstimator :=
  {| input_multipliers := default [] input_multipliers;
     overhead_gb := default (3 # 10) overhead_gb;
     min_gb := default (Some (1 # 2)) min_gb;
     max_gb := default (Some 8%Q) max_gb |}.

(** Python's [max(a, b)] and [min(a, b)]: the first argument is kept unless
    the second is strictly larger, respectively smaller. *)
Definition py_max (a b : Q) : Q := if Qlt_le_dec a b then b else a.
Definition py_min (a b : Q) : Q := if Qlt_le_dec b a then b else a.

Definition clamp (value : Q) (min_val max_val : option Q) : Q :=
  let value := match min_val with
               | Some min_val => py_max min_val value
               | None => value
               end in
  let value := match max_val with
               | Some max_val => py_min max_val value
               | None => value
               end in
  value.

(** [math.prod(shape[:3])]. *)
Definition spatial_voxels (shape : list Z) : Z := fold_left Z.mul (take 3 shape) 1%Z.

Section Estimator.
(** The files on disk that the paths of the inputs name. *)
Variable disk : str -> image_file.

(** [RamEstimator.voxels]; [None] when [nib.load] raises. *)
Definition voxels (path : str) : option Z :=
  match disk path with
  | Image shape => Some (spatial_voxels shape)
  | _ => None
  end.

(** The loop over [paths]: the voxels and the number of the files that
    exist and load. *)
Definition scan_paths (paths : list str) : Z * Z :=
  fold_left
    (fun '(vox_total, valid_files) p =>
       match disk p with
       | Missing => (vox_total, valid_files)
       | _ => match voxels p with
              | Some n => (vox_total + n, valid_files + 1)%Z
              | None => (vox_total, valid_files)
              end
       end)
    paths (0%Z, 0%Z).

(** [paths], or [None] where the source leaves [paths = None]. *)
Definition paths_of (val : pyval) : option (list str) :=
  match val with
  | Scalar (SStr s) => Some [s]
  | PyList l | PyTuple l => if existsb is_str l then Some (strings_of l) else None
  | _ => None
  end.

(** [values], or [None] where the source leaves [values = None]. *)
Definition values_of (val : pyval) : option (list scalar) :=
  match val with
  | Scalar x => match as_number x with
              | Some _ => Some [x]
              | None => None
              end
  | PyList l | PyTuple l => if forallb (fun v => bool_decide (is_Some (as_number v))) l
                            then Some l else None
  | Undefined => None
  end.

(** One turn of the loop over [self.input_multipliers.items()]. *)
Definition process_input (inputs : gmap str pyval)
    (state : Q * list debug_line) (item : str * Q) : Q * list debug_line :=
  let '(total_gb, debug_lines) := state in
  let '(attr, multiplier) := item in
  match inputs !! attr with
  | None => (total_gb, debug_lines ++ [TraitNotFound attr])
  | Some Undefined | Some (Scalar SNone) => (total_gb, debug_lines ++ [UndefinedLine attr])
  | Some val =>
      match paths_of val with
      | Some paths =>
          let '(vox_total, valid_files) := scan_paths paths in
          if (0 <? valid_files)%Z then
            let contribution := (inject_Z vox_total * multiplier / inject_Z (1024 ^ 3))%Q in
            ((total_gb + contribution)%Q,
             debug_lines ++ [VoxelsLine attr vox_total multiplier contribution])
          else (total_gb, debug_lines ++ [NoReadableLine attr])
      | None =>
          match values_of val with
          | Some values =>
              let contribution := (sum_floats (omap as_number values) * multiplier)%Q in
              ((total_gb + contribution)%Q,
               debug_lines ++ [ValuesLine attr values multiplier contribution])
          | None => (total_gb, debug_lines ++ [UnsupportedLine attr (type_name val)])
          end
      end
  end.

(** [total_gb] and [debug_lines] when the loop is over. *)
Definition contributions (self : RamEstimator) (inputs : gmap str pyval)
    : Q * list debug_line :=
  fold_left (process_input inputs) (input_multipliers self) (0%Q, []).

(** [mem_gb] before it is clamped: the contributions and the overhead. *)
Definition raw_total (self : RamEstimator) (inputs : gmap str pyval) : Q :=
  (fst (contributions self inputs) + overhead_gb self)%Q.

(** [RamEstimator.__call__], with the lines of the debug string before
    they are formatted and joined. *)
Definition estimate (self : RamEstimator) (inputs : gmap str pyval)
    : Q * list debug_line :=
  let '(total_gb, debug_lines) := contributions self inputs in
  let mem_gb := (total_gb + overhead_gb self)%Q in
  let debug_lines := debug_lines ++ [OverheadLine (overhead_gb self) mem_gb] in
  let mem_gb := clamp mem_gb (min_gb self) (max_gb self) in
  let debug_lines := debug_lines ++ [ClampLine mem_gb] in
  (mem_gb, debug_lines).

(** How numbers and lists are printed is left to Python's formatting. *)
Variable fmt : Q -> str.                (* f"{x}" *)
Variable fmt3 : Q -> str.               (* f"{x:.3f}" *)
Variable fmt_int : Z -> str.            (* f"{n}" *)
Variable fmt_values : list scalar -> str.

Definition render (line : debug_line) : str :=
  match line with
  | TraitNotFound attr => attr ++ lit ": trait not found"
  | UndefinedLine attr => attr ++ lit ": undefined"
  | VoxelsLine attr vox_total multiplier contribution =>
      attr ++ lit ": voxels=" ++ fmt_int vox_total ++ lit ", multiplier="
      ++ fmt multiplier ++ lit ", contribution=" ++ fmt3 contribution ++ lit " GB"
  | NoReadableLine attr => attr ++ lit ": no readable image files"
  | ValuesLine attr values multiplier contribution =>
      attr ++ lit ": values=" ++ fmt_values values ++ lit ", multiplier="
      ++ fmt multiplier ++ lit ", contribution=" ++ fmt3 contribution ++ lit " GB"
  | UnsupportedLine attr tyname =>
      attr ++ lit ": unsupported value type (" ++ tyname ++ lit ")"
  | OverheadLine overhead_gb mem_gb =>
      lit "Overhead=" ++ fmt overhead_gb ++ lit " GB, total estimated RAM="
      ++ fmt3 mem_gb ++ lit " GB"
  | ClampLine mem_gb => lit "Clamp=" ++ fmt3 mem_gb ++ lit " GB"
  end.

(** [sep.join(lines)]. *)
Fixpoint str_join (sep : str) (lines : list str) : str :=
  match lines with
  | [] => []
  | [x] => x
  | x :: rest => x ++ sep ++ str_join sep rest
  end.

Definition __call__ (self : RamEstimator) (inputs : gmap str pyval) : Q * str :=
  let '(mem_gb, debug_lines) := estimate self inputs in
  (mem_gb, str_join (lit " | ") (map render debug_lines)).
End Estimator.

(** ** Notions used to state the properties *)

(** What [os.path.split] makes of the part up to the last separator. *)
Definition norm_head (head : str) : str :=
  if bool_decide (head <> []) && bool_decide (head <> replicate (length head) sep)
  then rstrip sep head else head.

(** The directory part that [os.path.split] returns: empty, a run of
    separators, or a path that does not end with a separator. *)
Inductive is_head : str -> Prop :=
| is_head_empty : is_head []
| is_head_root n : is_head (replicate (S n) sep)
| is_head_dir l x : x <> sep -> is_head (l ++ [x]).

(** Some character of [r] is not a dot. *)
Definition has_name (r : str) : bool :=
  existsb (fun c => bool_decide (c <> extsep)) r.

(** The directory part of [p] ends with more than one separator, and does
    not consist of separators only. *)
Definition redundant_sep (p : str) : bool :=
  let head := take (Z.to_nat (rfind sep p + 1)) p in
  endswith [sep; sep] head && bool_decide (head <> replicate (length head) sep).

Definition hash_chars (h : str) : Prop := Forall (fun c => is_hash_char c = true) h.

(** The text of one match: [_0x] and 32 characters of [[a-z0-9]]. *)
Definition is_token (m : str) : Prop :=
  exists h, m = lit "_0x" ++ h /\ length h = 32 /\ hash_chars h.

(** The pattern occurs somewhere in [name]. *)
Definition contains_token (name : str) : Prop :=
  exists pre h post, name = pre ++ lit "_0x" ++ h ++ post /\ length h = 32 /\ hash_chars h.

Definition abc32 : str := lit "abc123abc123abc123abc123abc12345".

Definition denied (path : str) : platform :=
  {| posix := true;
     io_fault := fun p => if decide (p = path) then Some (lit "EACCES") else None |}.

Definition one_file (path data : str) : world :=
  {| files := {[ path := File data ]}; warnings := [] |}.




(** The names of the header and of the side file of an [.img] file:
    [f[:-4] + ".hdr"] and [f[:-4] + ".mat"]. *)
Definition hdr_of (f : str) : str := drop_last4 f ++ lit ".hdr".

Definition mat_of (f : str) : str := drop_last4 f ++ lit ".mat".

Definition plain_posix : platform := {| posix := true; io_fault := fun _ => None |}.

(** The lines that one weight adds to [debug_lines]. *)
Definition step_lines (disk : str -> image_file) (inputs : gmap str pyval)
    (item : str * Q) : list debug_line :=
  snd (process_input disk inputs (0%Q, []) item).

(** The attribute a line speaks about. *)
Definition line_attr (line : debug_line) : option str :=
  match line with
  | TraitNotFound a | UndefinedLine a | VoxelsLine a _ _ _ | NoReadableLine a
  | ValuesLine a _ _ _ | UnsupportedLine a _ => Some a
  | OverheadLine _ _ | ClampLine _ => None
  end.

Definition is_empty_sequence (val : pyval) : Prop :=
  val = PyList [] \/ val = PyTuple [].

Definition one_volume : str -> image_file :=
  fun p => if decide (p = lit "/data/vol.nii") then Image [100; 100; 100]%Z else Missing.

Definition flirt : RamEstimator :=
  RamEstimator_init (Some [(lit "in_file", 32%Q); (lit "reference", 4%Q)])
    (Some (3 # 10)) (Some (Some (1 # 2))) (Some (Some 8%Q)).

Definition flirt_inputs : gmap str pyval :=
  {[ lit "in_file" := Scalar (SStr (lit "/data/vol.nii")); lit "reference" := Undefined ]}.

(** [x] is [y] made no larger: a number gives way to a number that is at
    least as large; anything else stays as it is. *)
Inductive scalar_le : scalar -> scalar -> Prop :=
| scalar_le_number x y a b :
    as_number x = Some a -> as_number y = Some b -> (a <= b)%Q -> scalar_le x y
| scalar_le_same x : scalar_le x x.

Inductive pyval_le : pyval -> pyval -> Prop :=
| pyval_le_undefined : pyval_le Undefined Undefined
| pyval_le_scalar x y : scalar_le x y -> pyval_le (Scalar x) (Scalar y)
| pyval_le_list l1 l2 : Forall2 scalar_le l1 l2 -> pyval_le (PyList l1) (PyList l2)
| pyval_le_tuple l1 l2 : Forall2 scalar_le l1 l2 -> pyval_le (PyTuple l1) (PyTuple l2).

(** The same traits, each with a value that is no smaller. *)
Definition inputs_le (i1 i2 : gmap str pyval) : Prop :=
  forall attr, option_Forall2 pyval_le (i1 !! attr) (i2 !! attr).

Definition image_le (f1 f2 : image_file) : Prop :=
  match f1, f2 with
  | Missing, Missing => True
  | Unreadable, Unreadable => True
  | Image s1, Image s2 => (spatial_voxels s1 <= spatial_voxels s2)%Z
  | _, _ => False
  end.

(** The same files, each image with a voxel count that is no smaller. *)
Definition disk_le (d1 d2 : str -> image_file) : Prop :=
  forall p, image_le (d1 p) (d2 p).

Definition nonneg_multipliers (self : RamEstimator) : Prop :=
  Forall (fun item => (0 <= snd item)%Q) (input_multipliers self).

(** What one weight adds to [total_gb]. *)
Definition input_contribution (disk : str -> image_file) (inputs : gmap str pyval)
    (item : str * Q) : Q :=
  fst (process_input disk inputs (0%Q, []) item).

(** What a defined value adds to [total_gb], by its kind. *)
Definition value_contribution (disk : str -> image_file) (val : pyval)
    (multiplier : Q) : Q :=
  match paths_of val with
  | Some paths =>
      if (0 <? snd (scan_paths disk paths))%Z
      then (inject_Z (fst (scan_paths disk paths)) * multiplier / inject_Z (1024 ^ 3))%Q
      else 0%Q
  | None =>
      match values_of val with
      | Some values => (sum_floats (omap as_number values) * multiplier)%Q
      | None => 0%Q
      end
  end.

Definition no_files : str -> image_file := fun _ => Missing.

Definition shrinking : RamEstimator :=
  {| input_multipliers := [(lit "iterations", (-1)%Q)];
     overhead_gb := 3 # 10; min_gb := Some (1 # 2); max_gb := Some 8%Q |}.

(** ** Further notions used to state the properties *)

(** The trait is not there, was never set, or is [None]. *)
Definition no_input (inputs : gmap str pyval) (attr : str) : Prop :=
  inputs !! attr = None \/ inputs !! attr = Some Undefined
  \/ inputs !! attr = Some (Scalar SNone).

(** No number in the value is negative. *)
Definition nonneg_scalar (x : scalar) : Prop :=
  forall q, as_number x = Some q -> (0 <= q)%Q.

Definition nonneg_val (val : pyval) : Prop :=
  match val with
  | Undefined => True
  | Scalar x => nonneg_scalar x
  | PyList l | PyTuple l => Forall nonneg_scalar l
  end.

(** What [list_to_filename] returns, as an argument of [filename_to_list]. *)
Definition as_path_arg (r : str + list str) : path_arg :=
  match r with
  | inl s => OnePath s
  | inr l => PathList l
  end.

(** What link mode leaves of the files, from [fs] to [fs']: everything
    under other names than [names], and no regular file that was not
    there before. *)
Definition link_frame (names : list str) (fs fs' : gmap str node) : Prop :=
  (forall k, k ∉ names -> fs' !! k = fs !! k) /\
  (forall k data, fs' !! k = Some (File data) -> fs !! k = Some (File data)).

(** A destination that is a link to a file kept elsewhere. *)
Definition linked_world : world :=
  {| files := {[ lit "/in/a.nii" := File (lit "new");
                 lit "/raw/orig.nii" := File (lit "precious");
                 lit "/out/b.nii" := Symlink (lit "/raw/orig.nii") ]};
     warnings := [] |}.

(** * Properties of the string primitives *)

Lemma rfind_ge (c : ascii) (p : str) : (-1 <= rfind c p)%Z.
Proof.
  induction p as [|x r IH]; cbn [rfind]; [lia|].
  destruct (0 <=? rfind c r)%Z eqn:E; [lia|]. destruct (decide (x = c)); lia.
Qed.

Lemma rfind_absent (c : ascii) (p : str) : c ∉ p -> rfind c p = (-1)%Z.
Proof.
  induction p as [|x r IH]; intros Hc; cbn [rfind]; [reflexivity|].
  apply not_elem_of_cons in Hc as [Hx Hr]. rewrite (IH Hr). cbn.
  destruct (decide (x = c)); congruence.
Qed.

Lemma rfind_last (c : ascii) (l r : str) :
  c ∉ r -> rfind c (l ++ c :: r) = Z.of_nat (length l).
Proof.
  intros Hr. induction l as [|x l IH]; cbn [rfind app length].
  - rewrite (rfind_absent c r Hr). cbn. now rewrite decide_True.
  - rewrite IH. destruct (0 <=? _)%Z eqn:E; lia.
Qed.

Lemma rfind_cases (c : ascii) (p : str) :
  ((c ∉ p) /\ rfind c p = (-1)%Z) \/
  (exists l r, p = l ++ c :: r /\ (c ∉ r) /\ rfind c p = Z.of_nat (length l)).
Proof.
  induction p as [|x p IH].
  - left. split; [apply not_elem_of_nil|reflexivity].
  - destruct IH as [[Hc Hf]|(l & r & -> & Hr & Hf)].
    + destruct (decide (x = c)) as [->|Hx].
      * right. exists [], p. repeat split; [assumption|]. now apply (rfind_last c []).
      * left. split; [now apply not_elem_of_cons|]. apply rfind_absent.
        now apply not_elem_of_cons.
    + right. exists (x :: l), r. repeat split; [assumption|].
      now apply (rfind_last c (x :: l)).
Qed.

Lemma rstrip_snoc_ne (c x : ascii) (l : str) : x <> c -> rstrip c (l ++ [x]) = l ++ [x].
Proof.
  intros Hx. induction l as [|y l IH]; cbn [rstrip app].
  - now rewrite decide_False.
  - rewrite IH. now destruct (l ++ [x]) eqn:E; [destruct l; discriminate|].
Qed.

Lemma rstrip_replicate (c : ascii) (n : nat) : rstrip c (replicate n c) = [].
Proof. induction n as [|n IH]; cbn [rstrip replicate]; [|rewrite IH, decide_True]; done. Qed.

Lemma rstrip_app_replicate (c : ascii) (l : str) (n : nat) :
  rstrip c (l ++ replicate n c) = rstrip c l.
Proof.
  induction l as [|x l IH]; cbn [rstrip app]; [apply rstrip_replicate|now rewrite IH].
Qed.

(** A string is its stripped part followed by a run of [c]; the stripped
    part is empty or ends with another character. *)
Lemma rstrip_cases (c : ascii) (p : str) :
  exists n, p = rstrip c p ++ replicate n c /\
            (rstrip c p = [] \/ exists l x, rstrip c p = l ++ [x] /\ x <> c).
Proof.
  induction p as [|x p (n & Hp & Hs)]; [exists 0; split; [reflexivity|now left]|].
  cbn [rstrip]. destruct (rstrip c p) as [|y s] eqn:E.
  - destruct (decide (x = c)) as [->|Hx].
    + exists (S n). split; [cbn; now rewrite Hp at 1|now left].
    + exists n. split; [cbn; now rewrite Hp at 1|]. right. now exists [], x.
  - exists n. split; [cbn; now rewrite Hp at 1|]. right.
    destruct Hs as [|(l & z & Hl & Hz)]; [discriminate|].
    exists (x :: l), z. split; [cbn; now rewrite Hl|assumption].
Qed.

Lemma replicate_snoc (c : ascii) (n : nat) : replicate n c ++ [c] = replicate (S n) c.
Proof. induction n as [|n IH]; cbn; [reflexivity|]. f_equal. exact IH. Qed.

(** * Properties of posixpath *)

Lemma os_path_split_nosep (p : str) : sep ∉ p -> os_path_split p = ([], p).
Proof.
  intros Hp. unfold os_path_split. rewrite (rfind_absent sep p Hp). reflexivity.
Qed.

Lemma os_path_split_last (l t : str) :
  sep ∉ t -> os_path_split (l ++ sep :: t) = (norm_head (l ++ [sep]), t).
Proof.
  intros Ht. unfold os_path_split, norm_head. rewrite (rfind_last sep l t Ht).
  replace (Z.to_nat (Z.of_nat (length l) + 1)) with (length (l ++ [sep]))
    by (rewrite length_app; cbn; lia).
  replace (l ++ sep :: t) with ((l ++ [sep]) ++ t) by now rewrite <- app_assoc.
  now rewrite take_app_length, drop_app_length.
Qed.

Lemma norm_head_is_head (l : str) : is_head (norm_head (l ++ [sep])).
Proof.
  unfold norm_head. rewrite bool_decide_true by (now destruct l). cbn [andb].
  case_bool_decide as Hrep.
  - destruct (rstrip_cases sep (l ++ [sep])) as (n & Hp & [He|(s & x & Hs & Hx)]).
    + exfalso. apply Hrep. rewrite He in Hp. cbn in Hp.
      now rewrite Hp, length_replicate.
    + rewrite Hs. now constructor.
  - rewrite Hrep, length_app, Nat.add_comm. constructor.
Qed.

Lemma os_path_split_cases (p : str) :
  ((sep ∉ p) /\ os_path_split p = ([], p)) \/
  (exists l t, p = l ++ sep :: t /\ (sep ∉ t) /\
               os_path_split p = (norm_head (l ++ [sep]), t)).
Proof.
  destruct (rfind_cases sep p) as [[Hp _]|(l & t & -> & Ht & _)].
  - left. split; [assumption|now apply os_path_split_nosep].
  - right. exists l, t. repeat split; [assumption|now apply os_path_split_last].
Qed.

Lemma os_path_split_tail (p : str) : sep ∉ snd (os_path_split p).
Proof.
  destruct (os_path_split_cases p) as [[Hp ->]|(l & t & -> & Ht & ->)]; assumption.
Qed.

Lemma os_path_split_head (p : str) : is_head (fst (os_path_split p)).
Proof.
  destruct (os_path_split_cases p) as [[Hp ->]|(l & t & -> & Ht & ->)].
  - constructor.
  - apply norm_head_is_head.
Qed.

Lemma startswith_sep_false (b : str) : sep ∉ b -> startswith [sep] b = false.
Proof.
  intros Hb. unfold startswith. apply bool_decide_false. destruct b as [|x b]; [done|].
  cbn. intros [=->]. apply Hb. constructor.
Qed.

Lemma endswith_snoc (x c : ascii) (l : str) :
  endswith [c] (l ++ [x]) = bool_decide (x = c).
Proof.
  unfold endswith. rewrite length_app. cbn [length].
  replace (length l + 1 - 1) with (length l) by lia. rewrite drop_app_length.
  apply bool_decide_ext. split; [intros [_ [=]]; done|intros ->; split; [lia|done]].
Qed.

Lemma is_head_root_all (n : nat) :
  replicate (S n) sep = replicate (length (replicate (S n) sep)) sep.
Proof. now rewrite length_replicate. Qed.

Lemma is_head_dir_not_all (l : str) (x : ascii) (n : nat) :
  x <> sep -> l ++ [x] <> replicate n sep.
Proof.
  intros Hx H. destruct n as [|n]; [now destruct l|].
  rewrite <- replicate_snoc in H. apply app_inj_tail in H as [_ ?]. contradiction.
Qed.

Lemma is_head_dir_sep_not_all (l : str) (x : ascii) (n : nat) :
  x <> sep -> (l ++ [x]) ++ [sep] <> replicate n sep.
Proof.
  intros Hx H. destruct n as [|n]; [now destruct l|].
  rewrite <- replicate_snoc in H. apply app_inj_tail in H as [H _].
  now apply is_head_dir_not_all in H.
Qed.

(** Joining what [os.path.split] returned. *)
Lemma os_path_join_head (d b : str) :
  is_head d -> sep ∉ b ->
  os_path_join d b =
    if bool_decide (d = []) then b
    else if bool_decide (d = replicate (length d) sep) then d ++ b
    else d ++ sep :: b.
Proof.
  intros Hd Hb. unfold os_path_join. rewrite (startswith_sep_false b Hb).
  destruct Hd as [|n|l x Hx].
  - reflexivity.
  - rewrite (bool_decide_true _ (is_head_root_all n)).
    rewrite <- replicate_snoc, endswith_snoc, (bool_decide_true (sep = sep)) by reflexivity.
    rewrite orb_true_r. now rewrite bool_decide_false by (now destruct n).
  - rewrite endswith_snoc, (bool_decide_false (x = sep)) by assumption.
    rewrite bool_decide_false by (now destruct l). cbn [orb].
    now rewrite bool_decide_false by (now apply is_head_dir_not_all).
Qed.

Lemma os_path_split_join (d b : str) :
  is_head d -> sep ∉ b -> os_path_split (os_path_join d b) = (d, b).
Proof.
  intros Hd Hb. rewrite (os_path_join_head d b Hd Hb). destruct Hd as [|n|l x Hx].
  - now apply os_path_split_nosep.
  - rewrite bool_decide_false by done.
    rewrite (bool_decide_true _ (is_head_root_all n)).
    rewrite <- replicate_snoc, <- app_assoc. cbn [app].
    rewrite (os_path_split_last _ _ Hb). f_equal. unfold norm_head.
    rewrite replicate_snoc.
    rewrite (bool_decide_false (_ <> replicate _ _)) by (intros H; apply H, is_head_root_all).
    now rewrite andb_false_r.
  - rewrite bool_decide_false by (now destruct l).
    rewrite bool_decide_false by (now apply is_head_dir_not_all).
    rewrite (os_path_split_last _ _ Hb). f_equal. unfold norm_head.
    rewrite bool_decide_true by (now destruct l).
    rewrite bool_decide_true by (now apply is_head_dir_sep_not_all).
    cbn [andb]. change [sep] with (replicate 1 sep).
    rewrite (rstrip_app_replicate sep (l ++ [x]) 1). now apply rstrip_snoc_ne.
Qed.

Lemma os_path_splitext_app (p : str) :
  fst (os_path_splitext p) ++ snd (os_path_splitext p) = p.
Proof.
  unfold os_path_splitext.
  repeat match goal with |- context [if ?b then _ else _] => destruct b end;
    cbn [fst snd]; [apply take_drop|apply app_nil_r..].
Qed.

Lemma os_path_splitext_nodot (b : str) : extsep ∉ b -> os_path_splitext b = (b, []).
Proof.
  intros Hb. unfold os_path_splitext. rewrite (rfind_absent extsep b Hb).
  pose proof (rfind_ge sep b). now rewrite (proj2 (Z.ltb_ge _ _)) by lia.
Qed.

Lemma os_path_splitext_lastdot (r e : str) :
  sep ∉ r ++ extsep :: e -> extsep ∉ e ->
  os_path_splitext (r ++ extsep :: e)
  = if has_name r then (r, extsep :: e) else (r ++ extsep :: e, []).
Proof.
  intros Hsep He. unfold os_path_splitext, slice, has_name.
  rewrite (rfind_absent sep _ Hsep), (rfind_last extsep r e He).
  rewrite (proj2 (Z.ltb_lt _ _)) by lia.
  change (Z.to_nat (-1 + 1)) with 0. rewrite drop_0.
  change (-1 + 1)%Z with 0%Z.
  rewrite Z.sub_0_r, Nat2Z.id, take_app_length, drop_app_length. reflexivity.
Qed.

Lemma has_name_app (a b : str) : has_name (a ++ b) = has_name a || has_name b.
Proof. apply existsb_app. Qed.

Lemma has_name_nodot (t : str) : t <> [] -> extsep ∉ t -> has_name t = true.
Proof.
  intros Ht Hd. destruct t as [|c t]; [done|]. cbn.
  rewrite bool_decide_true; [reflexivity|]. intros ->. apply Hd. constructor.
Qed.

(** * Properties of split_filename *)

Lemma split_ext_loop_app (fuel : nat) (fname : str) (ext : list str) :
  fst (split_ext_loop fuel fname ext) ++ concat (reverse (snd (split_ext_loop fuel fname ext)))
  = fname ++ concat (reverse ext).
Proof.
  revert fname ext. induction fuel as [|n IH]; intros fname ext; [reflexivity|].
  cbn [split_ext_loop]. pose proof (os_path_splitext_app fname) as Happ.
  destruct (os_path_splitext fname) as [fname' tmp]. cbn [fst snd] in Happ.
  destruct tmp as [|c tmp].
  - cbn [fst snd]. rewrite reverse_snoc. cbn [concat app].
    now rewrite <- Happ, !app_nil_r.
  - rewrite IH, reverse_snoc. cbn [concat]. now rewrite <- Happ, <- app_assoc.
Qed.

(** More turns than [fname] has characters never run out. *)
Lemma split_ext_loop_enough (n m : nat) (fname : str) (ext : list str) :
  length fname < n -> length fname < m ->
  split_ext_loop n fname ext = split_ext_loop m fname ext.
Proof.
  revert m fname ext. induction n as [|n IH]; intros m fname ext Hn Hm; [lia|].
  destruct m as [|m]; [lia|]. cbn [split_ext_loop].
  pose proof (os_path_splitext_app fname) as Happ.
  destruct (os_path_splitext fname) as [fname' tmp]. cbn [fst snd] in Happ.
  destruct tmp as [|c tmp]; [reflexivity|].
  assert (length fname' < length fname)
    by (rewrite <- Happ, length_app; cbn [length]; lia).
  apply IH; lia.
Qed.

(** With more turns than [fname] has characters the loop ends as the
    source's does: on an empty extension. *)
Lemma split_ext_loop_ends (fuel : nat) (fname : str) (ext : list str) :
  length fname < fuel ->
  exists exts, snd (split_ext_loop fuel fname ext) = exts ++ [[]].
Proof.
  revert fname ext. induction fuel as [|n IH]; intros fname ext Hlen; [lia|].
  cbn [split_ext_loop]. pose proof (os_path_splitext_app fname) as Happ.
  destruct (os_path_splitext fname) as [fname' tmp]. cbn [fst snd] in Happ.
  destruct tmp as [|c tmp]; [now exists ext|].
  apply IH. rewrite <- Happ, length_app in Hlen. cbn [length] in Hlen. lia.
Qed.

Lemma split_filename_parts (p : str) :
  fst (fst (split_filename p)) = fst (os_path_split p) /\
  snd (fst (split_filename p)) ++ snd (split_filename p) = snd (os_path_split p).
Proof.
  unfold split_filename. destruct (os_path_split p) as [pth fname].
  pose proof (split_ext_loop_app (S (length fname)) fname []) as Happ.
  destruct (split_ext_loop _ fname []) as [stem ext]. cbn [fst snd] in *.
  now rewrite Happ, app_nil_r.
Qed.

Lemma split_filename_ext (p q : str) :
  os_path_split p = os_path_split q -> split_filename p = split_filename q.
Proof. unfold split_filename. now intros ->. Qed.

(** The path rebuilt from the parts with nothing added. *)
Lemma fname_presuffix_plain (abspath : str -> str) (p : str) :
  fname_presuffix abspath p [] [] None true
  = os_path_join (fst (os_path_split p)) (snd (os_path_split p)).
Proof.
  unfold fname_presuffix. destruct (split_filename_parts p) as [Hd Hb].
  destruct (split_filename p) as [[pth fname] ext]. cbn [fst snd app] in *.
  now rewrite Hd, Hb.
Qed.

Lemma endswith_two_snoc (l : str) (x : ascii) :
  endswith [sep; sep] ((l ++ [x]) ++ [sep]) = bool_decide (x = sep).
Proof.
  unfold endswith. rewrite !length_app. cbn [length].
  replace (length l + 1 + 1 - 2) with (length l) by lia.
  rewrite <- app_assoc, drop_app_length. cbn [app].
  apply bool_decide_ext. split; [intros [_ [=]]; done|intros ->; split; [lia|done]].
Qed.

Lemma os_path_join_split (p : str) :
  redundant_sep p = false ->
  os_path_join (fst (os_path_split p)) (snd (os_path_split p)) = p.
Proof.
  intros Hred. pose proof (os_path_split_head p) as Hhead.
  pose proof (os_path_split_tail p) as Htail.
  rewrite (os_path_join_head _ _ Hhead Htail). clear Hhead Htail.
  unfold redundant_sep in Hred.
  destruct (rfind_cases sep p) as [[Hp Hf]|(l & t & -> & Ht & Hf)].
  - now rewrite (os_path_split_nosep p Hp).
  - rewrite Hf in Hred. rewrite (os_path_split_last l t Ht). cbn [fst snd].
    replace (Z.to_nat (Z.of_nat (length l) + 1)) with (length (l ++ [sep])) in Hred
      by (rewrite length_app; cbn; lia).
    replace (l ++ sep :: t) with ((l ++ [sep]) ++ t) in * by now rewrite <- app_assoc.
    rewrite take_app_length in Hred. unfold norm_head.
    rewrite (bool_decide_true (l ++ [sep] <> [])) by (now destruct l). cbn [andb].
    case_bool_decide as Hall.
    + rewrite andb_true_r in Hred.
      destruct l as [|x l _] using rev_ind.
      { exfalso. now apply Hall. }
      rewrite endswith_two_snoc in Hred. apply bool_decide_eq_false in Hred.
      assert (Hr : rstrip sep ((l ++ [x]) ++ [sep]) = l ++ [x]).
      { change [sep] with (replicate 1 sep).
        now rewrite rstrip_app_replicate, (rstrip_snoc_ne sep x l Hred). }
      rewrite Hr. rewrite bool_decide_false by (now destruct l).
      rewrite bool_decide_false by (now apply is_head_dir_not_all).
      now rewrite <- !app_assoc.
    + rewrite bool_decide_false by (now destruct l).
      now rewrite bool_decide_true by (now rewrite <- Hall).
Qed.

(** C4. A path split by [split_filename] and put together again by
    [fname_presuffix] with no prefix, no suffix, no new directory and the
    extension kept: the path rebuilt has the directory, stem and extension
    of the original, rebuilding it again changes nothing, and it is the
    original itself unless the directory part of the original ends with
    separators to spare. This holds for every path, whatever the number of
    parts of its extension. *)
Theorem split_join_roundtrip (abspath : str -> str) (p : str) :
  let rebuilt := fname_presuffix abspath p [] [] None true in
  split_filename rebuilt = split_filename p /\
  fname_presuffix abspath rebuilt [] [] None true = rebuilt /\
  (redundant_sep p = false -> rebuilt = p).
Proof.
  intros rebuilt. subst rebuilt. rewrite !fname_presuffix_plain.
  pose proof (os_path_split_join _ _ (os_path_split_head p) (os_path_split_tail p)) as Hs.
  rewrite <- surjective_pairing in Hs. split; [|split].
  - now apply split_filename_ext.
  - now rewrite Hs.
  - apply os_path_join_split.
Qed.

Lemma split_join_roundtrip_witness :
  fname_presuffix (fun p => p) (lit "/home/data/subject.nii.gz") [] [] None true
  = lit "/home/data/subject.nii.gz".
Proof.
  apply (split_join_roundtrip (fun p => p) (lit "/home/data/subject.nii.gz")).
  vm_compute. reflexivity.
Defined.

(** * A token put between the stem and the extension *)

(** The extensions found behind [stem] are found again, one by one, behind
    [stem ++ tok] when [tok] holds neither a dot nor a separator. *)
Lemma split_ext_loop_token (tok : str) :
  tok <> [] -> extsep ∉ tok -> sep ∉ tok ->
  forall (fuel : nat) (fname : str) (ext : list str) (stem : str) (exts : list str),
    sep ∉ fname -> length fname < fuel ->
    split_ext_loop fuel fname ext = (stem, exts) ->
    exists E, fname = stem ++ E /\
      forall fuel', length (stem ++ tok ++ E) < fuel' ->
        split_ext_loop fuel' (stem ++ tok ++ E) ext = (stem ++ tok, exts).
Proof.
  intros Htok Hdot Hsep. induction fuel as [|n IH]; intros fname ext stem exts Hf Hlen Hloop;
    [lia|].
  cbn [split_ext_loop] in Hloop.
  destruct (rfind_cases extsep fname) as [[Hnd _]|(r & e & -> & He & _)].
  - (* no dot left *)
    rewrite (os_path_splitext_nodot fname Hnd) in Hloop. injection Hloop as <- <-.
    exists []. split; [now rewrite app_nil_r|]. intros [|fuel'] Hfuel; [lia|].
    cbn [split_ext_loop]. rewrite app_nil_r, os_path_splitext_nodot; [reflexivity|].
    rewrite not_elem_of_app. now split.
  - rewrite (os_path_splitext_lastdot r e Hf He) in Hloop.
    destruct (has_name r) eqn:Hname.
    + (* one more extension *)
      assert (Hr : sep ∉ r) by (rewrite not_elem_of_app in Hf; tauto).
      assert (Hrlen : length r < n) by (rewrite length_app in Hlen; cbn in Hlen; lia).
      destruct (IH r _ stem exts Hr Hrlen Hloop) as (E & -> & Hnew).
      exists (E ++ extsep :: e). split; [now rewrite <- app_assoc|].
      intros [|fuel'] Hfuel; [lia|]. cbn [split_ext_loop].
      replace (stem ++ tok ++ E ++ extsep :: e) with ((stem ++ tok ++ E) ++ extsep :: e)
        by now rewrite <- !app_assoc.
      rewrite os_path_splitext_lastdot; [|rewrite !not_elem_of_app in *; tauto|assumption].
      rewrite !has_name_app, (has_name_nodot tok Htok Hdot), orb_true_r. cbn [orb].
      apply Hnew. rewrite !length_app in *. cbn [length] in *. lia.
    + (* only dots before the last dot *)
      injection Hloop as <- <-.
      exists []. split; [now rewrite app_nil_r|]. intros [|fuel'] Hfuel; [lia|].
      cbn [split_ext_loop]. rewrite app_nil_r.
      replace ((r ++ extsep :: e) ++ tok) with (r ++ extsep :: (e ++ tok))
        by now rewrite <- app_assoc.
      rewrite os_path_splitext_lastdot, Hname; [reflexivity| |].
      * rewrite !not_elem_of_app, !not_elem_of_cons, !not_elem_of_app in *. tauto.
      * rewrite not_elem_of_app. tauto.
Qed.

Lemma is_hash_char_plain (c : ascii) : is_hash_char c = true -> c <> sep /\ c <> extsep.
Proof. intros Hc. split; intros ->; discriminate Hc. Qed.

Lemma hash_chars_plain (h : str) : hash_chars h -> (sep ∉ h) /\ (extsep ∉ h).
Proof.
  induction 1 as [|c h Hc _ [IH1 IH2]]; [split; apply not_elem_of_nil|].
  destruct (is_hash_char_plain c Hc). rewrite !not_elem_of_cons.
  repeat split; (assumption || congruence).
Qed.

Lemma token_plain (h : str) :
  hash_chars h ->
  lit "_0x" ++ h <> [] /\ (extsep ∉ lit "_0x" ++ h) /\ (sep ∉ lit "_0x" ++ h).
Proof.
  intros Hh. destruct (hash_chars_plain h Hh) as [Hs Hd]. split; [done|].
  cbn. rewrite !not_elem_of_cons. repeat split; (assumption || discriminate).
Qed.

(** The new name that [hash_rename] makes: its directory, stem and
    extension. *)
Lemma split_filename_hash_rename (filename hash : str) :
  hash_chars hash ->
  split_filename (hash_rename filename hash)
  = (fst (fst (split_filename filename)),
     snd (fst (split_filename filename)) ++ lit "_0x" ++ hash,
     snd (split_filename filename)).
Proof.
  intros Hh. destruct (token_plain hash Hh) as (Htok & Hdot & Hsep).
  unfold hash_rename, split_filename at 2 3 4 5.
  pose proof (os_path_split_head filename) as Hhead.
  pose proof (os_path_split_tail filename) as Htail.
  destruct (os_path_split filename) as [pth fname]. cbn [fst snd] in *.
  pose proof (split_ext_loop_app (S (length fname)) fname []) as Happ.
  destruct (split_ext_loop (S (length fname)) fname []) as [stem exts] eqn:Hloop.
  cbn [fst snd] in *. rewrite app_nil_r in Happ.
  destruct (split_ext_loop_token _ Htok Hdot Hsep _ _ _ _ _ Htail (Nat.lt_succ_diag_r _) Hloop)
    as (E & HE & Hnew).
  assert (E = concat (reverse exts)) as ->
    by (rewrite HE in Happ; now apply app_inv_head in Happ).
  set (newname := stem ++ lit "_0x" ++ hash ++ concat (reverse exts)).
  assert (Hnn : sep ∉ newname).
  { subst newname. rewrite HE in Htail. rewrite !not_elem_of_app in *.
    cbn in Hsep. rewrite !not_elem_of_cons in Hsep. cbn. rewrite !not_elem_of_cons. tauto. }
  unfold split_filename. rewrite (os_path_split_join _ _ Hhead Hnn).
  subst newname.
  replace (stem ++ lit "_0x" ++ hash ++ concat (reverse exts))
    with (stem ++ (lit "_0x" ++ hash) ++ concat (reverse exts))
    by now rewrite <- !app_assoc.
  now rewrite (Hnew _ (Nat.lt_succ_diag_r _)).
Qed.

(** * Properties of check_forhash *)

Lemma hash_chars_forallb (h : str) : forallb is_hash_char h = true <-> hash_chars h.
Proof. unfold hash_chars. rewrite forallb_forall, Forall_forall. 
  split; intros H x Hx; apply H; now apply list_elem_of_In. Qed.

Lemma match_here_token (h rest : str) :
  length h = 32 -> hash_chars h ->
  match_here (lit "_0x" ++ h ++ rest) = Some (lit "_0x" ++ h).
Proof.
  intros Hlen Hh. unfold match_here. cbn [lit list_ascii_of_string app take drop].
  assert (Ht : take 32 (h ++ rest) = h) by (rewrite <- Hlen; apply take_app_length).
  rewrite take_0, drop_0, Ht, bool_decide_true by reflexivity.
  rewrite bool_decide_true by assumption.
  now rewrite (proj2 (hash_chars_forallb h) Hh).
Qed.

Lemma match_here_inv (s m : str) :
  match_here s = Some m ->
  exists h rest, s = lit "_0x" ++ h ++ rest /\ length h = 32 /\ hash_chars h /\
                 m = lit "_0x" ++ h.
Proof.
  unfold match_here. intros H.
  destruct (bool_decide (take 3 s = lit "_0x")) eqn:H3; [|discriminate].
  destruct (bool_decide (length (take 32 (drop 3 s)) = 32)) eqn:H32; [|discriminate].
  destruct (forallb is_hash_char (take 32 (drop 3 s))) eqn:Hall; [|discriminate].
  injection H as <-. apply bool_decide_eq_true in H3, H32.
  apply hash_chars_forallb in Hall.
  exists (take 32 (drop 3 s)), (drop 32 (drop 3 s)).
  rewrite take_drop, <- H3, take_drop. repeat split; try assumption.
  now rewrite (take_take_drop s 3 32).
Qed.

Lemma re_search_here (s m : str) : match_here s = Some m -> re_search s = Some m.
Proof. intros H. destruct s; cbn [re_search]; now rewrite H. Qed.

Lemma re_search_finds (pre h post : str) :
  length h = 32 -> hash_chars h ->
  is_Some (re_search (pre ++ lit "_0x" ++ h ++ post)).
Proof.
  intros Hlen Hh. induction pre as [|c pre IH].
  - cbn [app]. rewrite (re_search_here _ _ (match_here_token _ post Hlen Hh)). eauto.
  - cbn [app re_search]. destruct (match_here _); [eauto|exact IH].
Qed.

Lemma re_search_inv (s m : str) :
  re_search s = Some m -> is_token m /\ exists pre post, s = pre ++ m ++ post.
Proof.
  induction s as [|c s IH]; cbn [re_search].
  - destruct (match_here []) eqn:E; [|discriminate]. apply match_here_inv in E.
    destruct E as (h & rest & E & _). discriminate.
  - destruct (match_here (c :: s)) eqn:E.
    + intros [= ->]. apply match_here_inv in E as (h & rest & E & Hlen & Hh & ->).
      split; [now exists h|]. exists [], rest. rewrite E. now rewrite <- app_assoc.
    + intros H. destruct (IH H) as [Htok (pre & post & ->)]. split; [assumption|].
      now exists (c :: pre), post.
Qed.

Lemma re_search_none (s : str) : re_search s = None -> ~ contains_token s.
Proof.
  intros Hnone (pre & h & post & -> & Hlen & Hh).
  destruct (re_search_finds pre h post Hlen Hh) as [m Hm]. congruence.
Qed.

(** The first match reported by [findall] is the one [search] finds. *)
Lemma re_findall_head (s m : str) :
  re_search s = Some m -> exists ms, re_findall s = m :: ms.
Proof.
  unfold re_findall. induction s as [|c s IH]; cbn [re_search re_findall_from].
  - destruct (match_here []) eqn:E; [|discriminate]. apply match_here_inv in E.
    destruct E as (h & rest & E & _). discriminate.
  - destruct (match_here (c :: s)) eqn:E; [intros [= ->]; eauto|exact IH].
Qed.

Lemma re_findall_from_tokens (s : str) (skip : nat) (m : str) :
  m ∈ re_findall_from skip s -> is_token m /\ exists pre post, s = pre ++ m ++ post.
Proof.
  revert skip. induction s as [|c s IH]; intros skip; cbn [re_findall_from].
  - intros H. now apply elem_of_nil in H.
  - assert (Hrest : forall k, m ∈ re_findall_from k s ->
              is_token m /\ exists pre post, c :: s = pre ++ m ++ post).
    { intros k Hk. destruct (IH k Hk) as [Htok (pre & post & ->)]. split; [assumption|].
      now exists (c :: pre), post. }
    destruct skip as [|k]; [|apply Hrest].
    destruct (match_here (c :: s)) eqn:E; [|apply Hrest].
    intros [->|Hm]%elem_of_cons; [|now apply (Hrest 34)].
    apply match_here_inv in E as (h & rest & E & Hlen & Hh & ->).
    split; [now exists h|]. exists [], rest. rewrite E. now rewrite <- app_assoc.
Qed.

(** A match holds no underscore after its first character. *)
Lemma match_here_underscore (s m : str) (i : nat) :
  match_here s = Some m -> 1 <= i < 35 -> s !! i <> Some "_"%char.
Proof.
  intros (h & rest & -> & Hlen & Hh & _)%match_here_inv Hi.
  destruct i as [|[|[|i]]]; [lia|discriminate..|].
  change ((lit "_0x" ++ h ++ rest) !! S (S (S i))) with ((h ++ rest) !! i).
  rewrite lookup_app_l by lia. intros Hc.
  unfold hash_chars in Hh. rewrite Forall_lookup in Hh. now apply Hh in Hc.
Qed.

Lemma re_findall_from_here (s m : str) :
  match_here s = Some m -> exists ms, re_findall_from 0 s = m :: ms.
Proof.
  intros H. destruct s as [|c s].
  - apply match_here_inv in H as (h & rest & E & _). discriminate.
  - cbn [re_findall_from]. rewrite H. eauto.
Qed.

(** No earlier match reaches into a later occurrence of the pattern, so
    [findall] reports that occurrence. *)
Lemma re_findall_from_reaches (tok pre post : str) (skip : nat) :
  is_token tok -> skip <= length pre ->
  tok ∈ re_findall_from skip (pre ++ tok ++ post).
Proof.
  intros (h & -> & Hlen & Hh). revert skip.
  induction pre as [|c pre IH]; intros skip Hskip.
  - cbn [length] in Hskip. replace skip with 0 by lia. cbn [app].
    rewrite <- app_assoc.
    destruct (re_findall_from_here _ _ (match_here_token h post Hlen Hh)) as [ms ->].
    constructor.
  - cbn [app re_findall_from length] in *. destruct skip as [|k]; [|apply IH; lia].
    destruct (match_here _) as [m|] eqn:E; [|apply IH; lia].
    apply elem_of_cons. right. apply IH.
    destruct (decide (34 <= length pre)) as [|Hshort]; [assumption|exfalso].
    apply (match_here_underscore _ _ (S (length pre)) E); [lia|].
    change ((c :: pre ++ (lit "_0x" ++ h) ++ post) !! S (length pre))
      with ((pre ++ (lit "_0x" ++ h) ++ post) !! length pre).
    rewrite lookup_app_r by lia. now rewrite Nat.sub_diag.
Qed.

(** C5. When the name part of [filename] holds [_0x] followed by 32
    characters of [[a-z0-9]], [check_forhash] returns [True] with the list
    of the matches, each one [_0x] and the 32 characters matched, each one
    a part of the name; when the name holds no such text, it returns
    [False] and [None]. Of a list of names only the first is looked at. *)
Theorem check_forhash_token (filename : str) :
  let name := snd (os_path_split filename) in
  (contains_token name ->
   exists m ms,
     check_forhash (Name filename) = Ok (true, Some (m :: ms)) /\
     Forall is_token (m :: ms) /\
     Forall (fun m => exists pre post, name = pre ++ m ++ post) (m :: ms)) /\
  (~ contains_token name -> check_forhash (Name filename) = Ok (false, None)) /\
  (forall others, check_forhash (NameList (filename :: others))
                  = check_forhash (Name filename)).
Proof.
  intros name. subst name. unfold check_forhash.
  destruct (os_path_split filename) as [path name]. cbn [snd].
  split; [|split; [|reflexivity]].
  - intros (pre & h & post & -> & Hlen & Hh).
    destruct (re_search_finds pre h post Hlen Hh) as [m Hm]. rewrite Hm.
    destruct (re_findall_head _ _ Hm) as [ms Hms]. exists m, ms. rewrite Hms.
    split; [reflexivity|]. rewrite <- Hms. unfold re_findall.
    split; apply Forall_forall; intros x Hx; now apply re_findall_from_tokens in Hx.
  - intros Hno. destruct (re_search name) as [m|] eqn:Hm; [|reflexivity].
    exfalso. apply Hno. apply re_search_inv in Hm as [(h & -> & Hlen & Hh) (pre & post & ->)].
    exists pre, h, post. now rewrite <- app_assoc.
Qed.

Lemma check_forhash_token_witness :
  exists m ms,
    check_forhash (Name (lit "scan_0x" ++ abc32 ++ lit "_T1.nii.gz")) = Ok (true, Some (m :: ms)).
Proof.
  destruct (check_forhash_token (lit "scan_0x" ++ abc32 ++ lit "_T1.nii.gz"))
    as [H _].
  destruct H as (m & ms & H & _).
  - exists (lit "scan"), abc32, (lit "_T1.nii.gz"). split; [reflexivity|].
    split; [reflexivity|]. apply hash_chars_forallb. reflexivity.
  - exists m, ms. exact H.
Defined.

Lemma os_path_split_hash_rename (filename hash : str) :
  hash_chars hash ->
  os_path_split (hash_rename filename hash)
  = (fst (fst (split_filename filename)),
     snd (fst (split_filename filename)) ++ lit "_0x" ++ hash
       ++ snd (split_filename filename)).
Proof.
  intros Hh. destruct (token_plain hash Hh) as (_ & _ & Hsep).
  destruct (split_filename_parts filename) as [Hd Hb]. unfold hash_rename.
  destruct (split_filename filename) as [[path name] ext]. cbn [fst snd] in *.
  apply os_path_split_join.
  - rewrite Hd. apply os_path_split_head.
  - pose proof (os_path_split_tail filename) as Htail. rewrite <- Hb in Htail.
    rewrite !not_elem_of_app in *. tauto.
Qed.

(** C9. For a hash of 32 characters of [[a-z0-9]], [check_forhash] finds the
    token in the name that [hash_rename] makes: it returns [True] and a
    list that holds [_0x] followed by the hash. The new name has the
    directory and the extension of the old one, and the old stem followed
    by the token as its stem. *)
Theorem hash_rename_check_forhash (filename hash : str) :
  length hash = 32 -> hash_chars hash ->
  (exists ms, check_forhash (Name (hash_rename filename hash)) = Ok (true, Some ms) /\
              lit "_0x" ++ hash ∈ ms) /\
  split_filename (hash_rename filename hash)
  = (fst (fst (split_filename filename)),
     snd (fst (split_filename filename)) ++ lit "_0x" ++ hash,
     snd (split_filename filename)).
Proof.
  intros Hlen Hh. split; [|now apply split_filename_hash_rename].
  unfold check_forhash. rewrite (os_path_split_hash_rename filename hash Hh).
  set (stem := snd (fst (split_filename filename))).
  set (ext := snd (split_filename filename)).
  destruct (re_search_finds stem hash ext Hlen Hh) as [m Hm]. rewrite Hm.
  eexists. split; [reflexivity|].
  replace (stem ++ lit "_0x" ++ hash ++ ext) with (stem ++ (lit "_0x" ++ hash) ++ ext)
    by now rewrite <- !app_assoc.
  apply re_findall_from_reaches; [now exists hash|lia].
Qed.

Lemma hash_rename_check_forhash_witness :
  split_filename (hash_rename (lit "/home/data/subject.nii.gz") abc32)
  = (lit "/home/data", lit "subject_0x" ++ abc32, lit ".nii.gz").
Proof.
  apply (hash_rename_check_forhash (lit "/home/data/subject.nii.gz") abc32).
  - reflexivity.
  - apply hash_chars_forallb. reflexivity.
Defined.

(** C6 does not hold as stated: [list_to_filename] is not total, the empty
    list makes it raise [IndexError]. *)
Lemma list_to_filename_empty_counterexample :
  list_to_filename [] = Raise IndexError /\ forall r, list_to_filename [] <> Ok r.
Proof. split; [reflexivity|]. intros r H. discriminate H. Qed.

(** C6, as the code has it. [list_to_filename] returns the only element of
    a list of length 1 and returns a longer list as it is; for the empty
    list it raises [IndexError]. *)
Theorem list_to_filename_cases (filelist : list str) :
  (forall x, filelist = [x] -> list_to_filename filelist = Ok (inl x)) /\
  (1 < length filelist -> list_to_filename filelist = Ok (inr filelist)) /\
  (filelist = [] -> list_to_filename filelist = Raise IndexError).
Proof.
  repeat split.
  - now intros x ->.
  - intros H. unfold list_to_filename. now rewrite decide_True.
  - now intros ->.
Qed.

Lemma list_to_filename_cases_witness :
  list_to_filename [lit "a.nii"; lit "b.nii"] = Ok (inr [lit "a.nii"; lit "b.nii"]).
Proof. apply (list_to_filename_cases [lit "a.nii"; lit "b.nii"]). cbn. lia. Defined.

Example split_filename_doc :
  split_filename (lit "/home/data/subject.nii.gz")
  = (lit "/home/data", lit "subject", lit ".nii.gz").
Proof. vm_compute. reflexivity. Qed.

Example split_filename_no_extension :
  split_filename (lit "/home/data/README") = (lit "/home/data", lit "README", []).
Proof. vm_compute. reflexivity. Qed.

Example split_filename_hidden :
  split_filename (lit "data/.profile") = (lit "data", lit ".profile", []).
Proof. vm_compute. reflexivity. Qed.

Example fname_presuffix_doc :
  fname_presuffix (fun p => p) (lit "foo.nii.gz") (lit "pre") (lit "post")
    (Some (lit "/tmp")) true
  = lit "/tmp/prefoopost.nii.gz".
Proof. vm_compute. reflexivity. Qed.

(** The separators before the name are not kept as they were. *)
Example fname_presuffix_redundant_sep :
  fname_presuffix (fun p => p) (lit "data//vol.nii") [] [] None true = lit "data/vol.nii".
Proof. vm_compute. reflexivity. Qed.

Example check_forhash_scan :
  check_forhash (Name (lit "scan_0x" ++ abc32 ++ lit "_T1.nii.gz"))
  = Ok (true, Some [lit "_0x" ++ abc32]).
Proof. vm_compute. reflexivity. Qed.

Example check_forhash_plain :
  check_forhash (Name (lit "scan_T1.nii.gz")) = Ok (false, None).
Proof. vm_compute. reflexivity. Qed.

(** Only the name counts, not the directory. *)
Example check_forhash_directory :
  check_forhash (Name (lit "/cache_0x" ++ abc32 ++ lit "/scan_T1.nii.gz")) = Ok (false, None).
Proof. vm_compute. reflexivity. Qed.

(** * Properties of the file system primitives *)

Lemma bindM_ret (m : M unit) (w : world) : bindM m (fun _ => ret tt) w = m w.
Proof. unfold bindM, ret. destruct (m w) as [[[]|e] w']; reflexivity. Qed.


(** A path that links lead to is the path asked for or the target of a link. *)
Lemma follow_target (n : nat) (fs : gmap str node) (p q : str) :
  follow n fs p = Some q -> q = p \/ exists k, fs !! k = Some (Symlink q).
Proof.
  revert p. induction n as [|n IH]; intros p; cbn [follow];
    destruct (fs !! p) as [[d|t'|]|] eqn:E; try (intros [= <-]; now left); try discriminate.
  intros H. destruct (IH _ H) as [->|?]; eauto.
Qed.


Lemma endswith_other (a b s : str) :
  length a = length b -> a <> b -> endswith a (s ++ b) = false.
Proof.
  intros Hlen Hne. unfold endswith. apply bool_decide_false. intros [_ Hdrop].
  rewrite length_app, Hlen in Hdrop.
  replace (length s + length b - length b) with (length s) in Hdrop by lia.
  rewrite drop_app_length in Hdrop. congruence.
Qed.

Lemma endswith_same (a s : str) : endswith a (s ++ a) = true.
Proof.
  unfold endswith. apply bool_decide_true. rewrite length_app. split; [lia|].
  replace (length s + length a - length a) with (length s) by lia.
  apply drop_app_length.
Qed.

Lemma suffix_differs (a b s1 s2 : str) :
  length a = length b -> a <> b -> s1 ++ a <> s2 ++ b.
Proof.
  intros Hlen Hne H. pose proof (endswith_same a s1) as E.
  rewrite H, (endswith_other a b s2 Hlen Hne) in E. discriminate.
Qed.

Lemma endswith_inv (a p : str) : endswith a p = true -> exists s, p = s ++ a.
Proof.
  unfold endswith. intros [_ H]%bool_decide_eq_true.
  exists (take (length p - length a) p). rewrite <- H at 2. now rewrite take_drop.
Qed.

Section Copyfile.

Variable pf : platform.

Lemma copyfile_S (d : nat) (originalfile newfile : str) (copy : bool) :
  copyfile pf (S d) originalfile newfile copy
  = bindM (place pf originalfile newfile copy)
      (fun _ =>
         if endswith (lit ".img") originalfile then
           bindM (fun w => if os_path_exists w (drop_last4 originalfile ++ lit ".mat")
                           then copyfile pf d (drop_last4 originalfile ++ lit ".mat")
                                  (drop_last4 newfile ++ lit ".mat") copy w
                           else ret tt w)
             (fun _ => copyfile pf d (drop_last4 originalfile ++ lit ".hdr")
                         (drop_last4 newfile ++ lit ".hdr") copy)
         else ret tt).
Proof. reflexivity. Qed.

(** A call of [copyfile] for a file that is no [.img] places that file,
    whatever the depth left. *)
Lemma copyfile_companion (d : nat) (originalfile newfile : str) (copy : bool) (w : world) :
  endswith (lit ".img") originalfile = false ->
  copyfile pf (S d) originalfile newfile copy w = place pf originalfile newfile copy w.
Proof. intros H. rewrite copyfile_S, H. apply bindM_ret. Qed.

Lemma copyfile_hdr (d : nat) (s newfile : str) (copy : bool) (w : world) :
  copyfile pf (S d) (s ++ lit ".hdr") newfile copy w
  = place pf (s ++ lit ".hdr") newfile copy w.
Proof. apply copyfile_companion, endswith_other; done. Qed.

Lemma copyfile_mat (d : nat) (s newfile : str) (copy : bool) (w : world) :
  copyfile pf (S d) (s ++ lit ".mat") newfile copy w
  = place pf (s ++ lit ".mat") newfile copy w.
Proof. apply copyfile_companion, endswith_other; done. Qed.

(** [copyfile] for an [.img] file, in terms of the placements it makes. *)
Lemma copyfile_img (d : nat) (originalfile newfile : str) (copy : bool) (w : world) :
  endswith (lit ".img") originalfile = true ->
  copyfile pf (S (S d)) originalfile newfile copy w
  = bindM (place pf originalfile newfile copy)
      (fun _ =>
         bindM (fun w => if os_path_exists w (drop_last4 originalfile ++ lit ".mat")
                         then place pf (drop_last4 originalfile ++ lit ".mat")
                                (drop_last4 newfile ++ lit ".mat") copy w
                         else ret tt w)
           (fun _ => place pf (drop_last4 originalfile ++ lit ".hdr")
                       (drop_last4 newfile ++ lit ".hdr") copy)) w.
Proof.
  intros H. rewrite (copyfile_S (S d)), H. unfold bindM at 1 2 3 4.
  destruct (place pf originalfile newfile copy w) as [[[]|e] w1]; [|reflexivity].
  destruct (os_path_exists w1 _).
  - rewrite copyfile_mat.
    destruct (place pf _ _ copy w1) as [[[]|e] w2]; [|reflexivity]. apply copyfile_hdr.
  - unfold ret. apply copyfile_hdr.
Qed.

(** A depth of 2 is never exhausted. *)
Lemma copyfile_depth (n : nat) (originalfile newfile : str) (copy : bool) (w : world) :
  2 <= n ->
  copyfile pf n originalfile newfile copy w = copyfile pf 2 originalfile newfile copy w.
Proof.
  intros Hn. destruct n as [|[|n]]; [lia..|].
  destruct (endswith (lit ".img") originalfile) eqn:E.
  - now rewrite !copyfile_img.
  - now rewrite !copyfile_companion.
Qed.

End Copyfile.

(** * Failures of the copy *)

Lemma overwrite_warning_ok (o n : str) (copy : bool) (w : world) :
  fst (overwrite_warning o n copy w) = Ok tt /\
  files (snd (overwrite_warning o n copy w)) = files w.
Proof. unfold overwrite_warning. destruct (os_path_lexists w n); split; reflexivity. Qed.

(** The warnings after the check for an existing destination. *)
Lemma overwrite_warning_eq (o n : str) (copy : bool) (w : world) :
  overwrite_warning o n copy w
  = (Ok tt, {| files := files w;
               warnings := warnings w ++ (if os_path_lexists w n
                                          then [WarnOverwrite n o copy] else []) |}).
Proof.
  unfold overwrite_warning, warn, ret. destruct (os_path_lexists w n); [reflexivity|].
  destruct w. cbn. now rewrite app_nil_r.
Qed.

Ltac break_match :=
  repeat match goal with
         | |- context [match ?x with _ => _ end] =>
             lazymatch x with
             | context [match _ with _ => _ end] => fail
             | _ => destruct x eqn:?
             end
         end.

Lemma open_read_world (pf : platform) (src : str) (w w' : world) (r : result str) :
  open_read pf src w = (r, w') -> w' = w.
Proof. unfold open_read. break_match; intros [=]; congruence. Qed.

Lemma open_write_raise (pf : platform) (dst data : str) (w w' : world) (e : exn) :
  open_write pf dst data w = (Raise e, w') -> w' = w.
Proof. unfold open_write. break_match; intros [=]; congruence. Qed.

Lemma open_read_io (pf : platform) (src : str) (w w' : world) (e : exn) :
  open_read pf src w = (Raise e, w') -> exists errno, e = IOError errno.
Proof. unfold open_read. break_match; intros [=]; subst; eauto. Qed.

Lemma open_write_io (pf : platform) (dst data : str) (w w' : world) (e : exn) :
  open_write pf dst data w = (Raise e, w') -> exists errno, e = IOError errno.
Proof. unfold open_write. break_match; intros [=]; subst; eauto. Qed.

Lemma shutil_copyfile_raise (pf : platform) (src dst : str) (w w' : world) (e : exn) :
  shutil_copyfile pf src dst w = (Raise e, w') -> w' = w.
Proof.
  unfold shutil_copyfile, bindM. destruct (samefile (files w) src dst); [now intros [=]|].
  destruct (open_read pf src w) as [[data|e'] w0] eqn:Hread;
    apply open_read_world in Hread as ->; [|now intros [=]].
  apply open_write_raise.
Qed.

(** C2. When [copyfile] copies (not on posix, or [copy] is set) and
    [shutil.copyfile] raises anything but [shutil.Error], which it raises
    only when destination and source are one and the same file, then
    [copyfile] raises that very exception: nothing is caught and nothing is
    logged in its place. The world is left as the failed copy left it, with
    at most the warning about an existing destination added. *)
Theorem copy_failure_surfaced (pf : platform) (d : nat) (originalfile newfile : str)
    (copy : bool) (w : world) (e : exn) :
  posix pf && negb copy = false ->
  fst (shutil_copyfile pf originalfile newfile
         (snd (overwrite_warning originalfile newfile copy w))) = Raise e ->
  (forall msg, e <> ShutilError msg) ->
  copyfile pf (S d) originalfile newfile copy w
  = (Raise e, snd (overwrite_warning originalfile newfile copy w)).
Proof.
  intros Hmode Hfail He. rewrite copyfile_S. unfold bindM at 1, place, bindM at 1.
  destruct (overwrite_warning_ok originalfile newfile copy w) as [Hok _].
  destruct (overwrite_warning originalfile newfile copy w) as [r w0].
  cbn [fst snd] in *. subst r. rewrite Hmode. unfold try_shutil_copyfile.
  destruct (shutil_copyfile pf originalfile newfile w0) as [r w'] eqn:Hcopy.
  cbn [fst] in Hfail. subst r. rewrite (shutil_copyfile_raise _ _ _ _ _ _ Hcopy).
  destruct e; try reflexivity. now destruct (He msg).
Qed.

Lemma copy_failure_surfaced_witness :
  fst (copyfile (denied (lit "/out/b.nii")) 2 (lit "/in/a.nii") (lit "/out/b.nii") true
         (one_file (lit "/in/a.nii") (lit "bytes")))
  = Raise (IOError (lit "EACCES")).
Proof.
  rewrite (copy_failure_surfaced (denied (lit "/out/b.nii")) 1 (lit "/in/a.nii")
             (lit "/out/b.nii") true (one_file (lit "/in/a.nii") (lit "bytes"))
             (IOError (lit "EACCES"))).
  - reflexivity.
  - reflexivity.
  - vm_compute. reflexivity.
  - intros msg. discriminate.
Defined.

(** * Companion files *)








Section Placement.

Variable pf : platform.




(** In link mode, with no fault of the environment and no directory in the
    way, a link is made whether or not there is a file to link to. *)
Lemma place_link (o n : str) (w : world) :
  posix pf = true -> io_fault pf n = None -> files w !! n <> Some Directory ->
  place pf o n false w
  = (Ok tt, {| files := <[n := Symlink o]> (files w);
               warnings := warnings w ++ (if os_path_lexists w n
                                          then [WarnOverwrite n o false] else []) |}).
Proof.
  intros Hposix Hfault Hdir. unfold place, bindM at 1.
  rewrite overwrite_warning_eq, Hposix. cbn [negb andb]. unfold bindM.
  match goal with
  | |- context [os_path_lexists ?w0 n] =>
      lazymatch w0 with
      | w => fail
      | _ => change (os_path_lexists w0 n) with (os_path_lexists w n)
      end
  end.
  destruct (files w !! n) as [nd|] eqn:E.
  - assert (Hex : os_path_lexists w n = true)
      by (unfold os_path_lexists; apply bool_decide_true; rewrite E; eauto).
    rewrite Hex. unfold os_unlink, os_symlink, with_files. cbn [files warnings].
    rewrite Hfault, E.
    destruct nd; [| |contradiction]; cbn [files warnings];
      now rewrite lookup_delete_eq, insert_delete_eq.
  - assert (Hex : os_path_lexists w n = false)
      by (unfold os_path_lexists; apply bool_decide_false; rewrite E; now intros [? ?]).
    rewrite Hex. unfold ret, os_symlink, with_files. cbn [files warnings].
    now rewrite Hfault, E.
Qed.



End Placement.

Section Raises.
Variable pf : platform.

(** What [place] raises comes from the operating system. *)
Lemma place_raises (o n : str) (copy : bool) (w w' : world) (e : exn) :
  place pf o n copy w = (Raise e, w') ->
  (exists errno, e = IOError errno) \/ (exists errno, e = OSError errno).
Proof.
  unfold place, bindM at 1.
  destruct (overwrite_warning_ok o n copy w) as [Hok _].
  destruct (overwrite_warning o n copy w) as [r0 w0]. cbn [fst] in Hok. subst r0.
  destruct (posix pf && negb copy).
  - unfold bindM, os_unlink, os_symlink, ret.
    break_match; intros [=]; subst; eauto.
  - unfold try_shutil_copyfile, shutil_copyfile.
    destruct (samefile (files w0) o n); [discriminate|].
    unfold bindM.
    destruct (open_read pf o w0) as [[data|e0] w1] eqn:Hread.
    + destruct (open_write pf n data w1) as [[[]|e1] w2] eqn:Hwrite; [discriminate|].
      apply open_write_io in Hwrite as [errno ->]. intros [= <- _]. eauto.
    + apply open_read_io in Hread as [errno ->]. intros [= <- _]. eauto.
Qed.

(** The depth given to [copyfile] is never used up. *)
Lemma copyfile_never_exhausted (originalfile newfile : str) (copy : bool) (w : world) :
  fst (copyfile pf 2 originalfile newfile copy w) <> Raise RecursionError.
Proof.
  assert (Hplace : forall o n w0, fst (place pf o n copy w0) <> Raise RecursionError).
  { intros o n w0 H. destruct (place pf o n copy w0) as [r w1] eqn:Hp.
    cbn [fst] in H. subst r. apply place_raises in Hp as [[? ?]|[? ?]]; discriminate. }
  destruct (endswith (lit ".img") originalfile) eqn:E.
  - rewrite (copyfile_img pf 0 _ _ _ _ E). unfold bindM.
    pose proof (Hplace originalfile newfile w) as H1.
    destruct (place pf originalfile newfile copy w) as [[[]|e1] w1]; [|exact H1].
    destruct (os_path_exists w1 _).
    + pose proof (Hplace (drop_last4 originalfile ++ lit ".mat")
                    (drop_last4 newfile ++ lit ".mat") w1) as H2.
      destruct (place pf _ _ copy w1) as [[[]|e2] w2]; [|exact H2]. apply Hplace.
    + apply Hplace.
  - rewrite (copyfile_companion pf 1 _ _ _ _ E). apply Hplace.
Qed.
End Raises.

Section Companions.

Variable pf : platform.

Variables originalfile newfile : str.

Variable copy : bool.

Hypothesis Himg : endswith (lit ".img") originalfile = true.







End Companions.





(** When the destination is the header's own name, the copy of the
    primary makes the header, and [copyfile] succeeds with no header to
    begin with. *)
Example copy_onto_header_name :
  let w := one_file (lit "/in/a.img") (lit "bytes") in
  let r := copyfile plain_posix 2 (lit "/in/a.img") (lit "/in/a.hdr") true w in
  os_path_exists w (lit "/in/a.hdr") = false /\
  fst r = Ok tt /\
  files (snd r) !! lit "/in/a.hdr" = Some (File (lit "bytes")).
Proof. vm_compute. repeat split; reflexivity. Qed.

(** A link to the header's name that leads nowhere does not stand for a
    header: the copy fails. *)
Example copy_with_dangling_header_link :
  let w := {| files := {[ lit "/in/a.img" := File (lit "bytes");
                          lit "/x" := Symlink (lit "/in/a.hdr") ]};
              warnings := [] |} in
  exists e, fst (copyfile plain_posix 2 (lit "/in/a.img") (lit "/out/b.img") true w)
            = Raise e.
Proof. vm_compute. eexists. reflexivity. Qed.

Example copy_with_header :
  let w := {| files := {[ lit "/in/a.img" := File (lit "image");
                          lit "/in/a.hdr" := File (lit "header") ]};
              warnings := [] |} in
  let r := copyfile plain_posix 2 (lit "/in/a.img") (lit "/out/b.img") true w in
  fst r = Ok tt /\
  files (snd r) !! lit "/out/b.img" = Some (File (lit "image")) /\
  files (snd r) !! lit "/out/b.hdr" = Some (File (lit "header")) /\
  files (snd r) !! lit "/out/b.mat" = None.
Proof. vm_compute. repeat split; reflexivity. Qed.

(** * Properties of the RAM estimator *)

Lemma py_max_cases (a b : Q) :
  (a < b /\ py_max a b = b)%Q \/ (b <= a /\ py_max a b = a)%Q.
Proof. unfold py_max. destruct (Qlt_le_dec a b); auto. Qed.

Lemma py_min_cases (a b : Q) :
  (b < a /\ py_min a b = b)%Q \/ (a <= b /\ py_min a b = a)%Q.
Proof. unfold py_min. destruct (Qlt_le_dec b a); auto. Qed.

Lemma py_max_Qmax (a b : Q) : (py_max a b == Qmax a b)%Q.
Proof.
  destruct (py_max_cases a b) as [[H ->]|[H ->]].
  - symmetry. apply Q.max_r. lra.
  - symmetry. apply Q.max_l. lra.
Qed.

Lemma py_min_Qmin (a b : Q) : (py_min a b == Qmin a b)%Q.
Proof.
  destruct (py_min_cases a b) as [[H ->]|[H ->]].
  - symmetry. apply Q.min_r. lra.
  - symmetry. apply Q.min_l. lra.
Qed.

Ltac clamp_cases :=
  unfold clamp;
  repeat match goal with
  | |- context [py_max ?a ?b] =>
      let H := fresh in destruct (py_max_cases a b) as [[H ->]|[H ->]]
  | |- context [py_min ?a ?b] =>
      let H := fresh in destruct (py_min_cases a b) as [[H ->]|[H ->]]
  end.

Lemma clamp_both (v lo hi : Q) :
  (clamp v (Some lo) (Some hi) == Qmin hi (Qmax lo v))%Q.
Proof.
  unfold clamp. rewrite py_min_Qmin. 
  apply Q.min_compat; [reflexivity|apply py_max_Qmax].
Qed.

(** C7 does not hold as stated: with [low = 5], [high = 3] and [value = 4],
    [clamp] returns 3, and [max(low, min(high, value))] is 5. *)
Lemma clamp_formula_counterexample :
  ~ (clamp 4 (Some 5%Q) (Some 3%Q) == Qmax 5 (Qmin 3 4))%Q.
Proof.
  assert (Hc : clamp 4 (Some 5%Q) (Some 3%Q) = 3%Q) by (vm_compute; reflexivity).
  rewrite Hc, (Q.min_l 3 4), (Q.max_l 5 3) by (intro; discriminate).
  intro H. discriminate H.
Qed.

(** C7, as the code has it. With both bounds given, [clamp value low high]
    equals [min(high, max(low, value))] for any two bounds: the lower bound
    is applied first and the upper bound last, so that the result is [high]
    when [low] is above [high]. For [low <= high] this is
    [max(low, min(high, value))]. With one bound unset only the other one
    is applied, with both unset the value is returned as it is. *)
Theorem clamp_formula (value low high : Q) :
  (clamp value (Some low) (Some high) == Qmin high (Qmax low value))%Q /\
  ((low <= high)%Q ->
   (clamp value (Some low) (Some high) == Qmax low (Qmin high value))%Q) /\
  ((high < low)%Q -> (clamp value (Some low) (Some high) == high)%Q) /\
  (clamp value (Some low) None == Qmax low value)%Q /\
  (clamp value None (Some high) == Qmin high value)%Q /\
  clamp value None None = value.
Proof.
  split; [apply clamp_both|]. split; [|split; [|split; [|split]]].
  - intros Hle. rewrite clamp_both.
    destruct (Q.max_spec low value) as [[? ->]|[? ->]];
    destruct (Q.min_spec high value) as [[? ->]|[? ->]];
    repeat match goal with
           | |- context [Qmin ?a ?b] => destruct (Q.min_spec a b) as [[? ->]|[? ->]]
           | |- context [Qmax ?a ?b] => destruct (Q.max_spec a b) as [[? ->]|[? ->]]
           end; lra.
  - intros Hlt. rewrite clamp_both.
    destruct (Q.max_spec low value) as [[? ->]|[? ->]];
    repeat match goal with
           | |- context [Qmin ?a ?b] => destruct (Q.min_spec a b) as [[? ->]|[? ->]]
           end; lra.
  - apply py_max_Qmax.
  - apply py_min_Qmin.
  - reflexivity.
Qed.

Lemma clamp_formula_witness :
  (clamp 7 (Some (1 # 2)) (Some 8%Q) == Qmax (1 # 2) (Qmin 8 7))%Q /\
  (clamp 4 (Some 5%Q) (Some 3%Q) == 3)%Q.
Proof.
  split.
  - apply (proj1 (proj2 (clamp_formula 7 (1 # 2) 8))). intro H. discriminate H.
  - apply (proj1 (proj2 (proj2 (clamp_formula 4 5 3)))). reflexivity.
Defined.

Lemma call_mem_gb (disk : str -> image_file) (fmt fmt3 : Q -> str) (fmt_int : Z -> str)
    (fmt_values : list scalar -> str) (self : RamEstimator) (inputs : gmap str pyval) :
  fst (__call__ disk fmt fmt3 fmt_int fmt_values self inputs)
  = clamp (raw_total disk self inputs) (min_gb self) (max_gb self).
Proof.
  unfold __call__, estimate, raw_total.
  destruct (contributions disk self inputs) as [total_gb debug_lines]. reflexivity.
Qed.

(** C1. For bounds [min_gb <= max_gb] and any inputs, the memory that
    [__call__] returns lies between the bounds; it equals [min_gb] when the
    total before clamping is below [min_gb], equals [max_gb] when that
    total is above [max_gb], and equals the total otherwise. *)
Theorem estimate_within_bounds (disk : str -> image_file) (fmt fmt3 : Q -> str)
    (fmt_int : Z -> str) (fmt_values : list scalar -> str)
    (self : RamEstimator) (inputs : gmap str pyval) (lo hi : Q) :
  min_gb self = Some lo -> max_gb self = Some hi -> (lo <= hi)%Q ->
  let mem_gb := fst (__call__ disk fmt fmt3 fmt_int fmt_values self inputs) in
  let total := raw_total disk self inputs in
  (lo <= mem_gb <= hi)%Q /\
  ((total < lo)%Q -> (mem_gb == lo)%Q) /\
  ((hi < total)%Q -> (mem_gb == hi)%Q) /\
  ((lo <= total <= hi)%Q -> (mem_gb == total)%Q).
Proof.
  intros Hlo Hhi Hle mem_gb total. subst mem_gb total.
  rewrite call_mem_gb, Hlo, Hhi. clamp_cases; repeat split; intros; lra.
Qed.

Ltac break_step :=
  repeat match goal with
         | |- context [match ?x with _ => _ end] => destruct x eqn:?; simpl
         | |- context [if ?x then _ else _] => destruct x eqn:?; simpl
         end.

Lemma process_input_lines (disk : str -> image_file) (inputs : gmap str pyval)
    (total_gb : Q) (debug_lines : list debug_line) (item : str * Q) :
  snd (process_input disk inputs (total_gb, debug_lines) item)
  = debug_lines ++ step_lines disk inputs item.
Proof.
  unfold step_lines, process_input. destruct item as [attr multiplier].
  break_step; reflexivity.
Qed.

Lemma step_lines_attr (disk : str -> image_file) (inputs : gmap str pyval)
    (attr : str) (multiplier : Q) (line : debug_line) :
  In line (step_lines disk inputs (attr, multiplier)) -> line_attr line = Some attr.
Proof.
  unfold step_lines, process_input.
  break_step; intros [<-|[]]; reflexivity.
Qed.

Lemma fold_process_lines (disk : str -> image_file) (inputs : gmap str pyval)
    (items : list (str * Q)) (state : Q * list debug_line) :
  snd (fold_left (process_input disk inputs) items state)
  = snd state ++ flat_map (step_lines disk inputs) items.
Proof.
  revert state. induction items as [|item items IH]; intros [total_gb debug_lines];
    cbn [fold_left flat_map snd].
  - now rewrite app_nil_r.
  - now rewrite IH, process_input_lines, <- app_assoc.
Qed.

Lemma estimate_lines (disk : str -> image_file) (self : RamEstimator)
    (inputs : gmap str pyval) :
  snd (estimate disk self inputs)
  = flat_map (step_lines disk inputs) (input_multipliers self)
    ++ [OverheadLine (overhead_gb self) (raw_total disk self inputs);
        ClampLine (fst (estimate disk self inputs))].
Proof.
  unfold estimate, raw_total.
  pose proof (fold_process_lines disk inputs (input_multipliers self) (0%Q, [])) as H.
  unfold contributions. 
  destruct (fold_left _ _ _) as [total_gb debug_lines]. simpl in *. subst debug_lines.
  now rewrite <- app_assoc.
Qed.

Lemma estimate_within_bounds_witness :
  let mem_gb := fst (__call__ one_volume (fun _ => []) (fun _ => []) (fun _ => [])
                       (fun _ => []) flirt flirt_inputs) in
  ((1 # 2) <= mem_gb <= 8)%Q.
Proof.
  apply (estimate_within_bounds one_volume (fun _ => []) (fun _ => []) (fun _ => [])
           (fun _ => []) flirt flirt_inputs (1 # 2) 8).
  - reflexivity.
  - reflexivity.
  - intro H. discriminate H.
Defined.

Lemma process_empty_sequence (disk : str -> image_file) (inputs : gmap str pyval)
    (state : Q * list debug_line) (attr : str) (multiplier : Q) (val : pyval) :
  inputs !! attr = Some val -> is_empty_sequence val ->
  process_input disk inputs state (attr, multiplier)
  = ((fst state + 0 * multiplier)%Q,
     snd state ++ [ValuesLine attr [] multiplier (0 * multiplier)%Q]).
Proof.
  intros Hval Hempty. destruct state as [total_gb debug_lines].
  unfold process_input. rewrite Hval. destruct Hempty as [-> | ->]; reflexivity.
Qed.

(** C10. A weight whose input is the empty list or the empty tuple is
    handled as numeric: its contribution is 0, the turn of the loop adds
    that contribution to the total and a values line to the debug lines,
    and the lines returned hold that values line and neither an
    unsupported-type line nor a no-readable-files line for the input. *)
Theorem empty_sequence_is_numeric (disk : str -> image_file) (self : RamEstimator)
    (inputs : gmap str pyval) (attr : str) (multiplier : Q) (val : pyval) :
  In (attr, multiplier) (input_multipliers self) ->
  inputs !! attr = Some val -> is_empty_sequence val ->
  exists contribution : Q,
    (contribution == 0)%Q /\
    (forall total_gb debug_lines,
        process_input disk inputs (total_gb, debug_lines) (attr, multiplier)
        = ((total_gb + contribution)%Q,
           debug_lines ++ [ValuesLine attr [] multiplier contribution])) /\
    In (ValuesLine attr [] multiplier contribution) (snd (estimate disk self inputs)) /\
    (forall tyname, ~ In (UnsupportedLine attr tyname) (snd (estimate disk self inputs))) /\
    ~ In (NoReadableLine attr) (snd (estimate disk self inputs)).
Proof.
  intros Hin Hval Hempty. exists (0 * multiplier)%Q.
  assert (Hstep : forall m, step_lines disk inputs (attr, m)
                            = [ValuesLine attr [] m (0 * m)%Q]).
  { intros m. unfold step_lines.
    now rewrite (process_empty_sequence _ _ _ _ _ _ Hval Hempty). }
  assert (Hother : forall line, In line (snd (estimate disk self inputs)) ->
            line_attr line = Some attr -> exists m c, line = ValuesLine attr [] m c).
  { intros line Hline Hattr. rewrite estimate_lines in Hline.
    apply in_app_or in Hline as [Hline | [<- | [<- | []]]]; try discriminate.
    apply in_flat_map in Hline as ([a m] & _ & Hline).
    pose proof (step_lines_attr _ _ _ _ _ Hline) as Ha.
    rewrite Hattr in Ha. injection Ha as <-.
    rewrite Hstep in Hline. destruct Hline as [<- | []]. eauto. }
  split; [ring | split; [|split; [|split]]].
  - intros total_gb debug_lines.
    now rewrite (process_empty_sequence _ _ _ _ _ _ Hval Hempty).
  - rewrite estimate_lines. apply in_or_app. left.
    apply in_flat_map. exists (attr, multiplier). split; [assumption|].
    rewrite Hstep. now left.
  - intros tyname Hline. destruct (Hother _ Hline eq_refl) as (m & c & Heq). discriminate.
  - intros Hline. destruct (Hother _ Hline eq_refl) as (m & c & Heq). discriminate.
Qed.

Lemma scalar_le_str x y : scalar_le x y -> is_str x = is_str y.
Proof.
  intros [x' y' a b Ha Hb _|]; [|reflexivity].
  destruct x'; try discriminate; destruct y'; try discriminate; reflexivity.
Qed.

Lemma scalar_le_strings (l1 l2 : list scalar) :
  Forall2 scalar_le l1 l2 ->
  existsb is_str l1 = existsb is_str l2 /\ strings_of l1 = strings_of l2.
Proof.
  unfold strings_of.
  induction 1 as [|x y l1 l2 Hxy _ [IH1 IH2]]; [split; reflexivity|].
  cbn. rewrite IH1, IH2, (scalar_le_str _ _ Hxy). split; [reflexivity|].
  destruct Hxy as [x y a b Ha Hb _|]; [|reflexivity].
  destruct x; try discriminate; destruct y; try discriminate; reflexivity.
Qed.

Lemma scalar_le_is_number x y :
  scalar_le x y -> is_Some (as_number x) <-> is_Some (as_number y).
Proof.
  intros [x' y' a b Ha Hb _|]; [|reflexivity]. rewrite Ha, Hb. split; eauto.
Qed.

Lemma sum_floats_from (l : list Q) (acc : Q) :
  (fold_left Qplus l acc == acc + sum_floats l)%Q.
Proof.
  unfold sum_floats. revert acc.
  induction l as [|x l IH]; intros acc; cbn [fold_left].
  - ring.
  - rewrite (IH (acc + x)%Q), (IH (0 + x)%Q). ring.
Qed.

Lemma sum_floats_cons (x : Q) (l : list Q) :
  (sum_floats (x :: l) == x + sum_floats l)%Q.
Proof. unfold sum_floats at 1. cbn [fold_left]. rewrite sum_floats_from. ring. Qed.

Lemma scalar_le_sum (l1 l2 : list scalar) :
  Forall2 scalar_le l1 l2 ->
  (sum_floats (omap as_number l1) <= sum_floats (omap as_number l2))%Q.
Proof.
  induction 1 as [|x y l1 l2 Hxy _ IH]; [apply Qle_refl|].
  cbn [omap list_omap].
  destruct Hxy as [x y a b Ha Hb Hab|x].
  - rewrite Ha, Hb, !sum_floats_cons. lra.
  - destruct (as_number x); [rewrite !sum_floats_cons; lra | assumption].
Qed.

Lemma process_input_total (disk : str -> image_file) (inputs : gmap str pyval)
    (total_gb : Q) (debug_lines : list debug_line) (item : str * Q) :
  (fst (process_input disk inputs (total_gb, debug_lines) item)
   == total_gb + input_contribution disk inputs item)%Q.
Proof.
  unfold input_contribution, process_input. destruct item as [attr multiplier].
  break_step; ring.
Qed.

Lemma fold_process_total (disk : str -> image_file) (inputs : gmap str pyval)
    (items : list (str * Q)) (state : Q * list debug_line) :
  (fst (fold_left (process_input disk inputs) items state)
   == fst state + sum_floats (map (input_contribution disk inputs) items))%Q.
Proof.
  revert state. induction items as [|item items IH]; intros [total_gb debug_lines];
    cbn [fold_left map fst].
  - unfold sum_floats. cbn. ring.
  - rewrite IH, sum_floats_cons.
    destruct (process_input disk inputs (total_gb, debug_lines) item) as [t l] eqn:E.
    cbn [fst]. change t with (fst (t, l)). rewrite <- E, process_input_total. ring.
Qed.

Lemma raw_total_sum (disk : str -> image_file) (self : RamEstimator)
    (inputs : gmap str pyval) :
  (raw_total disk self inputs
   == sum_floats (map (input_contribution disk inputs) (input_multipliers self))
      + overhead_gb self)%Q.
Proof. unfold raw_total, contributions. rewrite fold_process_total. cbn [fst]. ring. Qed.

Lemma scan_paths_le (d1 d2 : str -> image_file) (paths : list str) :
  disk_le d1 d2 ->
  (fst (scan_paths d1 paths) <= fst (scan_paths d2 paths))%Z /\
  snd (scan_paths d1 paths) = snd (scan_paths d2 paths).
Proof.
  intros Hd. unfold scan_paths.
  assert (H : forall v1 v2 n : Z, (v1 <= v2)%Z ->
    let f disk := fun '(vox_total, valid_files) p =>
         match disk p with
         | Missing => (vox_total, valid_files)
         | _ => match voxels disk p with
                | Some n => (vox_total + n, valid_files + 1)%Z
                | None => (vox_total, valid_files)
                end
         end in
    (fst (fold_left (f d1) paths (v1, n)) <= fst (fold_left (f d2) paths (v2, n)))%Z /\
    snd (fold_left (f d1) paths (v1, n)) = snd (fold_left (f d2) paths (v2, n))).
  { induction paths as [|p paths IH]; intros v1 v2 n Hv; cbn [fold_left fst snd].
    - split; [assumption|reflexivity].
    - specialize (Hd p). unfold voxels, image_le in *.
      destruct (d1 p), (d2 p); try contradiction; apply IH; lia. }
  apply H. lia.
Qed.

Lemma paths_of_le (v1 v2 : pyval) : pyval_le v1 v2 -> paths_of v1 = paths_of v2.
Proof.
  intros [|x y Hxy|l1 l2 Hl|l1 l2 Hl]; cbn [paths_of]; try reflexivity.
  - destruct Hxy as [x y a b Ha Hb _|]; [|reflexivity].
    destruct x; try discriminate; destruct y; try discriminate; reflexivity.
  - destruct (scalar_le_strings _ _ Hl) as [-> ->]. reflexivity.
  - destruct (scalar_le_strings _ _ Hl) as [-> ->]. reflexivity.
Qed.

Lemma numbers_le (l1 l2 : list scalar) :
  Forall2 scalar_le l1 l2 ->
  forallb (fun v => bool_decide (is_Some (as_number v))) l1
  = forallb (fun v => bool_decide (is_Some (as_number v))) l2.
Proof.
  induction 1 as [|x y l1 l2 Hxy _ IH]; [reflexivity|]. cbn [forallb]. rewrite IH.
  f_equal. apply bool_decide_ext, scalar_le_is_number, Hxy.
Qed.

Lemma values_of_le (v1 v2 : pyval) :
  pyval_le v1 v2 ->
  option_Forall2 (Forall2 scalar_le) (values_of v1) (values_of v2).
Proof.
  intros [|x y Hxy|l1 l2 Hl|l1 l2 Hl]; cbn [values_of].
  - constructor.
  - destruct Hxy as [x y a b Ha Hb Hab|x].
    + rewrite Ha, Hb. constructor. constructor; [|constructor].
      eapply scalar_le_number; eassumption.
    + destruct (as_number x); constructor. constructor; constructor.
  - rewrite (numbers_le _ _ Hl). destruct (forallb _ l2); constructor. assumption.
  - rewrite (numbers_le _ _ Hl). destruct (forallb _ l2); constructor. assumption.
Qed.

Lemma input_contribution_value (disk : str -> image_file) (inputs : gmap str pyval)
    (attr : str) (multiplier : Q) :
  (input_contribution disk inputs (attr, multiplier)
   == match inputs !! attr with
      | Some val => value_contribution disk val multiplier
      | None => 0
      end)%Q.
Proof.
  unfold input_contribution, process_input, value_contribution.
  destruct (inputs !! attr) as [[|[]|l|l]|]; cbn [paths_of values_of as_number fst];
    try reflexivity; try ring;
    repeat match goal with
           | |- context [scan_paths ?d ?p] =>
               destruct (scan_paths d p) as [vox_total valid_files]; cbn [fst snd]
           | |- context [if ?b then _ else _] => destruct b; cbn [fst snd]
           end; try reflexivity; ring.
Qed.

Lemma value_contribution_le (d1 d2 : str -> image_file) (v1 v2 : pyval) (multiplier : Q) :
  (0 <= multiplier)%Q -> disk_le d1 d2 -> pyval_le v1 v2 ->
  (value_contribution d1 v1 multiplier <= value_contribution d2 v2 multiplier)%Q.
Proof.
  intros Hm Hd Hv. unfold value_contribution.
  rewrite (paths_of_le _ _ Hv). destruct (paths_of v2) as [paths|].
  - destruct (scan_paths_le d1 d2 paths Hd) as [Hvox ->].
    destruct (0 <? _)%Z; [|apply Qle_refl].
    apply Qmult_le_compat_r; [|discriminate].
    apply Qmult_le_compat_r; [|assumption].
    now rewrite <- Zle_Qle.
  - destruct (values_of_le _ _ Hv) as [l1 l2 Hl|]; [|apply Qle_refl].
    apply Qmult_le_compat_r; [|assumption]. now apply scalar_le_sum.
Qed.

Lemma sum_floats_le (A : Type) (f g : A -> Q) (l : list A) :
  Forall (fun x => (f x <= g x)%Q) l ->
  (sum_floats (map f l) <= sum_floats (map g l))%Q.
Proof.
  induction 1 as [|x l Hx _ IH]; [apply Qle_refl|].
  cbn [map]. rewrite !sum_floats_cons. lra.
Qed.

(** C8, as the code has it. When no multiplier is negative, the total
    before clamping does not decrease when numbers among the inputs grow
    and voxel counts of the images grow, everything else staying as it is;
    in particular when a single input grows. *)
Theorem raw_total_monotone (d1 d2 : str -> image_file) (self : RamEstimator)
    (i1 i2 : gmap str pyval) :
  nonneg_multipliers self -> disk_le d1 d2 -> inputs_le i1 i2 ->
  (raw_total d1 self i1 <= raw_total d2 self i2)%Q.
Proof.
  intros Hm Hd Hi. rewrite !raw_total_sum.
  apply Qplus_le_compat; [|apply Qle_refl].
  apply sum_floats_le. unfold nonneg_multipliers in Hm.
  induction Hm as [|[attr multiplier] items Hitem _ IH]; constructor; [|assumption].
  rewrite !input_contribution_value. cbn [snd] in Hitem.
  destruct (Hi attr) as [v1 v2 Hv|]; [|apply Qle_refl].
  now apply value_contribution_le.
Qed.

Lemma empty_sequence_is_numeric_witness :
  let self := RamEstimator_init (Some [(lit "iterations", 1 # 100)]) None None None in
  let inputs : gmap str pyval := {[ lit "iterations" := PyList [] ]} in
  exists contribution : Q,
    (contribution == 0)%Q /\
    In (ValuesLine (lit "iterations") [] (1 # 100) contribution)
      (snd (estimate (fun _ => Missing) self inputs)).
Proof.
  intros self inputs.
  destruct (empty_sequence_is_numeric (fun _ => Missing) self inputs (lit "iterations")
              (1 # 100) (PyList [])) as (c & Hc & _ & Hin & _).
  - left. reflexivity.
  - reflexivity.
  - left. reflexivity.
  - exists c. split; assumption.
Defined.

(** C8 does not hold as stated: with the multiplier -1, the total before
    clamping goes down from -0.7 to -1.7 when the input grows from 1 to 2. *)
Lemma raw_total_monotone_counterexample :
  let i1 : gmap str pyval := {[ lit "iterations" := Scalar (SInt 1) ]} in
  let i2 : gmap str pyval := {[ lit "iterations" := Scalar (SInt 2) ]} in
  disk_le no_files no_files /\ inputs_le i1 i2 /\
  ~ (raw_total no_files shrinking i1 <= raw_total no_files shrinking i2)%Q.
Proof.
  intros i1 i2. split; [|split].
  - intros p. exact I.
  - intros attr. subst i1 i2. destruct (decide (attr = lit "iterations")) as [->|Hne].
    + rewrite !lookup_singleton_eq. constructor. constructor.
      eapply scalar_le_number; [reflexivity..|]. discriminate.
    + rewrite !lookup_singleton_ne by congruence. constructor.
  - assert (H1 : raw_total no_files shrinking i1 = ((-7) # 10)%Q)
      by (vm_compute; reflexivity).
    assert (H2 : raw_total no_files shrinking i2 = ((-17) # 10)%Q)
      by (vm_compute; reflexivity).
    rewrite H1, H2. intros H. apply H. reflexivity.
Qed.

Lemma raw_total_monotone_witness :
  let self := RamEstimator_init (Some [(lit "iterations", 1 # 100)]) (Some (2 # 10))
                (Some None) (Some None) in
  let i1 : gmap str pyval := {[ lit "iterations" := PyList [SInt 50; SInt 40] ]} in
  let i2 : gmap str pyval := {[ lit "iterations" := PyList [SInt 50; SInt 50] ]} in
  (raw_total no_files self i1 <= raw_total no_files self i2)%Q.
Proof.
  intros self i1 i2. apply raw_total_monotone.
  - repeat constructor. discriminate.
  - intros p. exact I.
  - intros attr. subst i1 i2. destruct (decide (attr = lit "iterations")) as [->|Hne].
    + rewrite !lookup_singleton_eq. constructor. constructor.
      repeat constructor. eapply scalar_le_number; [reflexivity..|]. discriminate.
    + rewrite !lookup_singleton_ne by congruence. constructor.
Defined.

Example estimate_scenario_numeric :
  let self := RamEstimator_init (Some [(lit "iterations", 1 # 100)]) (Some (2 # 10))
                (Some None) (Some None) in
  let inputs : gmap str pyval := {[ lit "iterations" := PyList [SInt 50; SInt 50] ]} in
  (fst (estimate no_files self inputs) == 12 # 10)%Q.
Proof. vm_compute. reflexivity. Qed.

Example estimate_scenario_volume :
  estimate one_volume flirt flirt_inputs
  = (1 # 2,
     [VoxelsLine (lit "in_file") 1000000 32 (inject_Z 1000000 * 32 / inject_Z (1024 ^ 3));
      UndefinedLine (lit "reference");
      OverheadLine (3 # 10) (0 + inject_Z 1000000 * 32 / inject_Z (1024 ^ 3) + (3 # 10));
      ClampLine (1 # 2)])%Q.
Proof. vm_compute. reflexivity. Qed.

(** * Further properties of split_filename and fname_presuffix *)

(** What the loop leaves as the name has no extension left, and what it
    took off is empty or starts with a dot. *)
Lemma split_ext_loop_shape (fuel : nat) (fname : str) (ext : list str)
    (stem : str) (exts : list str) :
  sep ∉ fname -> length fname < fuel ->
  split_ext_loop fuel fname ext = (stem, exts) ->
  os_path_splitext stem = (stem, []) /\
  exists E, fname = stem ++ E /\ (E = [] \/ exists e, E = extsep :: e).
Proof.
  revert fname ext. induction fuel as [|n IH]; intros fname ext Hsep Hlen Hloop; [lia|].
  cbn [split_ext_loop] in Hloop.
  destruct (rfind_cases extsep fname) as [[Hnd _]|(r & e & -> & He & _)].
  - rewrite (os_path_splitext_nodot fname Hnd) in Hloop. injection Hloop as <- <-.
    split; [now apply os_path_splitext_nodot|]. exists []. split; [now rewrite app_nil_r|now left].
  - pose proof (os_path_splitext_lastdot r e Hsep He) as Hsplit. rewrite Hsplit in Hloop.
    destruct (has_name r) eqn:Hname.
    + assert (Hr : sep ∉ r) by (rewrite not_elem_of_app in Hsep; tauto).
      assert (Hrlen : length r < n) by (rewrite length_app in Hlen; cbn in Hlen; lia).
      destruct (IH r _ Hr Hrlen Hloop) as (Hstem & E & -> & HE). split; [assumption|].
      exists (E ++ extsep :: e). split; [now rewrite <- app_assoc|]. right.
      destruct HE as [->|[e' ->]]; eauto.
    + injection Hloop as <- <-. split; [assumption|].
      exists []. split; [now rewrite app_nil_r|now left].
Qed.

(** X1. The three parts that [split_filename] returns: the directory is a
    head as [os.path.split] gives it (empty, a run of separators, or a path
    that does not end with a separator); stem and extension hold no
    separator and together are the base name of the path; the stem has no
    extension left to split off, and the extension is empty or starts with
    a dot. *)
Theorem split_filename_shape (p : str) :
  let pth := fst (fst (split_filename p)) in
  let fname := snd (fst (split_filename p)) in
  let ext := snd (split_filename p) in
  is_head pth /\ (sep ∉ fname) /\ (sep ∉ ext) /\
  fname ++ ext = snd (os_path_split p) /\
  os_path_splitext fname = (fname, []) /\
  (ext = [] \/ exists e, ext = extsep :: e).
Proof.
  cbn zeta. destruct (split_filename_parts p) as [Hd Hb].
  pose proof (os_path_split_head p) as Hhead. pose proof (os_path_split_tail p) as Htail.
  rewrite <- Hd in Hhead. rewrite <- Hb in Htail.
  unfold split_filename in *. destruct (os_path_split p) as [pth b]. cbn [fst snd] in *.
  destruct (split_ext_loop (S (length b)) b []) as [stem exts] eqn:Hloop. cbn [fst snd] in *.
  assert (Hsepb : sep ∉ b) by now rewrite <- Hb.
  destruct (split_ext_loop_shape _ _ _ _ _ Hsepb (Nat.lt_succ_diag_r _) Hloop)
    as (Hstem & E & HE & Hshape).
  assert (E = concat (reverse exts)) as ->
    by (rewrite HE in Hb; now apply app_inv_head in Hb).
  rewrite not_elem_of_app in Htail. tauto.
Qed.

Lemma split_ext_loop_plain (fuel : nat) (stem : str) (ext : list str) :
  os_path_splitext stem = (stem, []) ->
  split_ext_loop (S fuel) stem ext = (stem, ext ++ [[]]).
Proof. intros H. cbn [split_ext_loop]. now rewrite H. Qed.

(** A suffix without dot or separator goes between the name and the
    extensions the loop finds, kept or dropped. *)
Lemma split_ext_loop_suffix (b stem suffix : str) (exts : list str) :
  sep ∉ b -> split_ext_loop (S (length b)) b [] = (stem, exts) ->
  extsep ∉ suffix -> sep ∉ suffix ->
  forall keep : bool,
    let ext := if keep then concat (reverse exts) else [] in
    exists exts',
      split_ext_loop (S (length (stem ++ suffix ++ ext))) (stem ++ suffix ++ ext) []
      = (stem ++ suffix, exts') /\
      concat (reverse exts') = ext.
Proof.
  intros Hb Hloop Hdot Hsep keep ext.
  pose proof (split_ext_loop_app (S (length b)) b []) as Happ.
  rewrite Hloop in Happ. cbn [fst snd] in Happ. rewrite app_nil_r in Happ.
  destruct (split_ext_loop_shape _ _ _ _ _ Hb (Nat.lt_succ_diag_r _) Hloop)
    as (Hstem & E & HE & _).
  assert (E = concat (reverse exts)) as ->
    by (rewrite HE in Happ; now apply app_inv_head in Happ).
  assert (Hsepstem : sep ∉ stem) by (rewrite HE, not_elem_of_app in Hb; tauto).
  destruct suffix as [|c suffix].
  - cbn [app]. rewrite (app_nil_r stem). destruct keep; subst ext.
    + rewrite <- HE. now exists exts.
    + rewrite app_nil_r. exists [[]]. now rewrite (split_ext_loop_plain _ _ [] Hstem).
  - assert (Htok : c :: suffix <> []) by done.
    destruct keep; subst ext.
    + destruct (split_ext_loop_token _ Htok Hdot Hsep _ _ _ _ _ Hb
                  (Nat.lt_succ_diag_r _) Hloop) as (E & HE' & Hnew).
      assert (E = concat (reverse exts)) as ->
        by (rewrite HE in HE'; now apply app_inv_head in HE').
      exists exts. split; [|reflexivity]. apply Hnew. lia.
    + pose proof (split_ext_loop_plain (length stem) stem [] Hstem) as Hplain.
      destruct (split_ext_loop_token _ Htok Hdot Hsep _ _ _ _ _ Hsepstem
                  (Nat.lt_succ_diag_r _) Hplain) as (E & HE' & Hnew).
      assert (E = []) as ->.
      { rewrite <- (app_nil_r stem) in HE' at 1. now apply app_inv_head in HE'. }
      exists [[]]. split; [|reflexivity]. apply Hnew. lia.
Qed.

Lemma split_filename_loop (p : str) :
  exists exts,
    split_ext_loop (S (length (snd (os_path_split p)))) (snd (os_path_split p)) []
    = (snd (fst (split_filename p)), exts) /\
    snd (split_filename p) = concat (reverse exts).
Proof.
  unfold split_filename. destruct (os_path_split p) as [pth b]. cbn [snd].
  destruct (split_ext_loop (S (length b)) b []) as [stem exts]. now exists exts.
Qed.

(** X2. With no prefix and a suffix that holds neither a dot nor a
    separator, the path that [fname_presuffix] makes splits again into the
    directory (the absolute [newpath] when one is given and not empty, else
    the directory of the original), the stem of the original followed by the
    suffix, and the extension of the original, or no extension when
    [use_ext] is false. The directory must be a head as [os.path.split]
    gives it. *)
Theorem fname_presuffix_suffix (abspath : str -> str) (p suffix : str)
    (newpath : option str) (use_ext : bool) :
  extsep ∉ suffix -> sep ∉ suffix ->
  let pth := match newpath with
             | Some (c :: np) => abspath (c :: np)
             | _ => fst (fst (split_filename p))
             end in
  is_head pth ->
  split_filename (fname_presuffix abspath p [] suffix newpath use_ext)
  = (pth, snd (fst (split_filename p)) ++ suffix,
     if use_ext then snd (split_filename p) else []).
Proof.
  intros Hdot Hsep pth Hhead.
  pose proof (os_path_split_tail p) as Htail.
  destruct (split_filename_parts p) as [_ Hb]. rewrite <- Hb in Htail.
  apply not_elem_of_app in Htail as [Hs1 Hs2]. clear Hb.
  destruct (split_filename_loop p) as (exts & Hloop & Hext).
  assert (Hjoin : fname_presuffix abspath p [] suffix newpath use_ext
                  = os_path_join pth (snd (fst (split_filename p)) ++ suffix
                      ++ (if use_ext then snd (split_filename p) else []))).
  { unfold fname_presuffix. subst pth.
    destruct (split_filename p) as [[pth0 stem] ext]. reflexivity. }
  rewrite Hjoin. set (stem := snd (fst (split_filename p))) in *.
  rewrite Hext in *.
  destruct (split_ext_loop_suffix _ stem suffix exts (os_path_split_tail p) Hloop
              Hdot Hsep use_ext) as (exts' & Hnew & Hext').
  assert (Hname : sep ∉ stem ++ suffix ++ (if use_ext then concat (reverse exts) else [])).
  { rewrite !not_elem_of_app. repeat split; try assumption.
    destruct use_ext; [assumption|apply not_elem_of_nil]. }
  unfold split_filename at 1. rewrite (os_path_split_join _ _ Hhead Hname), Hnew.
  now rewrite Hext'.
Qed.

Lemma fname_presuffix_suffix_witness :
  split_filename (fname_presuffix (fun p => p) (lit "/data/sub.nii.gz") [] (lit "_brain")
                    (Some (lit "/tmp")) true)
  = (lit "/tmp", lit "sub_brain", lit ".nii.gz").
Proof.
  apply (fname_presuffix_suffix (fun p => p) (lit "/data/sub.nii.gz") (lit "_brain")
           (Some (lit "/tmp")) true).
  - apply (bool_decide_unpack (extsep ∉ lit "_brain")). vm_compute. exact I.
  - apply (bool_decide_unpack (sep ∉ lit "_brain")). vm_compute. exact I.
  - apply (is_head_dir (lit "/tm") "p"%char). discriminate.
Defined.

(** * Further properties of hash_rename and check_forhash *)

(** X3. [hash_rename] loses nothing: when two hashes of [[a-z0-9]] of the
    same length give the same new name, the hashes are equal and the two
    original names have the same directory, stem and extension. *)
Theorem hash_rename_injective (f1 f2 h1 h2 : str) :
  hash_chars h1 -> hash_chars h2 -> length h1 = length h2 ->
  hash_rename f1 h1 = hash_rename f2 h2 ->
  split_filename f1 = split_filename f2 /\ h1 = h2.
Proof.
  intros Hh1 Hh2 Hlen Heq.
  pose proof (split_filename_hash_rename f1 h1 Hh1) as H1.
  pose proof (split_filename_hash_rename f2 h2 Hh2) as H2.
  rewrite Heq, H2 in H1. clear Heq H2.
  destruct (split_filename f1) as [[d1 s1] e1], (split_filename f2) as [[d2 s2] e2].
  cbn [fst snd] in H1. injection H1 as -> Hstem ->.
  symmetry in Hstem.
  apply (app_inj_2 s1 s2 (lit "_0x" ++ h1) (lit "_0x" ++ h2)) in Hstem as [-> Hh].
  - apply app_inv_head in Hh as ->. split; reflexivity.
  - rewrite !length_app. now rewrite Hlen.
Qed.

Lemma hash_rename_injective_witness :
  split_filename (lit "a.nii") = split_filename (lit "a.nii") /\ abc32 = abc32.
Proof.
  apply (hash_rename_injective (lit "a.nii") (lit "a.nii") abc32 abc32).
  - apply hash_chars_forallb. reflexivity.
  - apply hash_chars_forallb. reflexivity.
  - reflexivity.
  - reflexivity.
Defined.

Lemma match_here_length (s m : str) : match_here s = Some m -> 35 <= length s /\ length m = 35.
Proof.
  intros (h & rest & -> & Hlen & _ & ->)%match_here_inv.
  rewrite !length_app, Hlen. cbn. lia.
Qed.

Lemma re_findall_from_bound (s : str) (skip : nat) :
  35 * length (re_findall_from skip s) <= length s - skip.
Proof.
  revert skip. induction s as [|c s IH]; intros skip; cbn [re_findall_from length]; [lia|].
  destruct skip as [|k]; [|specialize (IH k); lia].
  destruct (match_here (c :: s)) as [m|] eqn:E.
  - apply match_here_length in E as [E _]. cbn [length] in *. specialize (IH 34). lia.
  - specialize (IH 0). lia.
Qed.

(** X4. The two results of [check_forhash] go together. When it returns a
    list of matches it also returns [True], the list is not empty, every
    match has 35 characters, and the matches do not overlap: 35 times their
    number is at most the length of the name part. When it returns [None]
    it also returns [False]. *)
Theorem check_forhash_matches (filename : str) (found : bool) (hash : option (list str)) :
  check_forhash (Name filename) = Ok (found, hash) ->
  let name := snd (os_path_split filename) in
  match hash with
  | Some ms => found = true /\ 1 <= length ms /\ 35 * length ms <= length name /\
               Forall (fun m => length m = 35) ms
  | None => found = false
  end.
Proof.
  unfold check_forhash. destruct (os_path_split filename) as [path name]. cbn [snd].
  destruct (re_search name) as [m|] eqn:Hm; intros [= <- <-]; [|reflexivity].
  destruct (re_findall_head _ _ Hm) as [ms Hms].
  split; [reflexivity|]. split; [rewrite Hms; cbn; lia|]. split.
  - pose proof (re_findall_from_bound name 0) as H. unfold re_findall. lia.
  - apply Forall_forall. intros x Hx. apply re_findall_from_tokens in Hx as [(h & -> & Hl & _) _].
    rewrite length_app, Hl. reflexivity.
Qed.

Lemma check_forhash_matches_witness :
  35 * length [lit "_0x" ++ abc32] <= length (lit "scan_0x" ++ abc32 ++ lit "_T1.nii.gz").
Proof.
  apply (check_forhash_matches (lit "/d/scan_0x" ++ abc32 ++ lit "_T1.nii.gz") true
           (Some [lit "_0x" ++ abc32])).
  vm_compute. reflexivity.
Defined.

(** * Further properties of filename_to_list and list_to_filename *)

(** X5. For a list that is not empty, [filename_to_list] undoes
    [list_to_filename]: the single name or the list that
    [list_to_filename] returns is turned back into the list it was made
    from. *)
Theorem list_to_filename_roundtrip (filelist : list str) :
  filelist <> [] ->
  exists r, list_to_filename filelist = Ok r /\
            filename_to_list (as_path_arg r) = Some filelist.
Proof.
  intros Hne. destruct filelist as [|x [|y rest]]; [done| |]; eexists; split; reflexivity.
Qed.

Lemma list_to_filename_roundtrip_witness :
  exists r, list_to_filename [lit "a.nii"] = Ok r /\
            filename_to_list (as_path_arg r) = Some [lit "a.nii"].
Proof. apply (list_to_filename_roundtrip [lit "a.nii"]). discriminate. Defined.

(** * Further properties of copyfile *)

Lemma follow_S (n : nat) (fs : gmap str node) (p : str) :
  follow (S n) fs p
  = match fs !! p with
    | Some (Symlink t) => follow n fs t
    | _ => Some p
    end.
Proof. reflexivity. Qed.

Lemma follow_here (n : nat) (fs : gmap str node) (p : str) :
  (forall t, fs !! p <> Some (Symlink t)) -> follow n fs p = Some p.
Proof.
  intros H. destruct n; cbn [follow]; destruct (fs !! p) as [[d|t|]|] eqn:E;
    try reflexivity; now destruct (H t).
Qed.

Lemma follow_self (n : nat) (fs : gmap str node) (p : str) :
  fs !! p = Some (Symlink p) -> follow n fs p = None.
Proof. intros H. induction n as [|n IH]; cbn [follow]; now rewrite H. Qed.

Lemma stat_file (fs : gmap str node) (p data : str) :
  fs !! p = Some (File data) -> stat fs p = Some (p, File data).
Proof.
  intros H. unfold stat. rewrite follow_here by (rewrite H; discriminate). now rewrite H.
Qed.

Lemma stat_absent (fs : gmap str node) (p : str) : fs !! p = None -> stat fs p = None.
Proof.
  intros H. unfold stat. rewrite follow_here by (rewrite H; discriminate). now rewrite H.
Qed.

Section LinkMode.
Variable pf : platform.
Variable copy : bool.
Hypothesis Hmode : posix pf && negb copy = true.

Lemma link_frame_refl (names : list str) (fs : gmap str node) : link_frame names fs fs.
Proof. split; auto. Qed.

Lemma link_frame_trans (n1 n2 : list str) (fs1 fs2 fs3 : gmap str node) :
  link_frame n1 fs1 fs2 -> link_frame n2 fs2 fs3 -> link_frame (n1 ++ n2) fs1 fs3.
Proof.
  intros [Ha1 Hb1] [Ha2 Hb2]. split.
  - intros k Hk. rewrite not_elem_of_app in Hk. rewrite Ha2, Ha1; tauto.
  - eauto.
Qed.

Lemma link_frame_delete (n : str) (fs : gmap str node) : link_frame [n] fs (delete n fs).
Proof.
  split.
  - intros k Hk. apply lookup_delete_ne. intros ->. apply Hk. constructor.
  - intros k data Hk. now apply lookup_delete_Some in Hk as [_ Hk].
Qed.

Lemma link_frame_insert (n t : str) (fs : gmap str node) :
  link_frame [n] fs (<[n := Symlink t]> fs).
Proof.
  split.
  - intros k Hk. apply lookup_insert_ne. intros ->. apply Hk. constructor.
  - intros k data Hk. now apply lookup_insert_Some in Hk as [[_ [=]]|[_ Hk]].
Qed.

Lemma link_frame_weaken (n1 n2 : list str) (fs fs' : gmap str node) :
  (forall k, k ∈ n1 -> k ∈ n2) -> link_frame n1 fs fs' -> link_frame n2 fs fs'.
Proof. intros Hsub [Ha Hb]. split; [|assumption]. intros k Hk. apply Ha. auto. Qed.

Ltac names_in :=
  let k := fresh "k" in
  intros k; rewrite ?elem_of_app, ?elem_of_cons, ?elem_of_nil; tauto.

Lemma place_link_frame (o n : str) (w w' : world) (r : result unit) :
  place pf o n copy w = (r, w') -> link_frame [n] (files w) (files w').
Proof using Hmode.
  unfold place, bindM at 1.
  destruct (overwrite_warning_ok o n copy w) as [Hok Hfiles].
  destruct (overwrite_warning o n copy w) as [r0 w0]. cbn [fst snd] in *. subst r0.
  rewrite <- Hfiles. clear Hfiles. rewrite Hmode. unfold bindM.
  assert (Hunlink : forall r1 w1,
            (if os_path_lexists w0 n then os_unlink pf n w0 else ret tt w0) = (r1, w1) ->
            link_frame [n] (files w0) (files w1)).
  { intros r1 w1. destruct (os_path_lexists w0 n); [|intros [= _ <-]; apply link_frame_refl].
    unfold os_unlink. break_match; intros [= _ <-];
      (apply link_frame_refl || apply link_frame_delete). }
  destruct (if os_path_lexists w0 n then os_unlink pf n w0 else ret tt w0)
    as [[[]|e1] w1] eqn:E1; specialize (Hunlink _ _ eq_refl).
  - unfold os_symlink. break_match; intros [= _ <-]; cbn [with_files files];
      apply (link_frame_weaken ([n] ++ [n])); try names_in;
      (eapply link_frame_trans; [exact Hunlink|]);
      (apply link_frame_refl || apply link_frame_insert).
  - now intros [= _ <-].
Qed.

(** X6. In link mode (posix, [copy] not set) [copyfile] touches nothing but
    the destination and the names of its header and side file, and it makes
    or changes no regular file: every file there is afterwards was there
    before with the same content. This holds whatever the outcome, also
    when [copyfile] raises. *)
Theorem copyfile_link_frame (originalfile newfile : str) (w w' : world) (r : result unit) :
  copyfile pf 2 originalfile newfile copy w = (r, w') ->
  (forall k, k <> newfile -> k <> hdr_of newfile -> k <> mat_of newfile ->
             files w' !! k = files w !! k) /\
  (forall k data, files w' !! k = Some (File data) -> files w !! k = Some (File data)).
Proof using Hmode.
  intros Hcopy.
  assert (H : link_frame [newfile; mat_of newfile; hdr_of newfile] (files w) (files w')).
  { destruct (endswith (lit ".img") originalfile) eqn:E.
    - rewrite (copyfile_img pf 0 _ _ _ _ E) in Hcopy. unfold bindM in Hcopy.
      destruct (place pf originalfile newfile copy w) as [r1 w1] eqn:H1.
      apply place_link_frame in H1.
      destruct r1 as [[]|e1];
        [|injection Hcopy as _ <-; eapply link_frame_weaken; [|exact H1]; names_in].
      assert (H2 : exists w2, link_frame [mat_of newfile] (files w1) (files w2) /\
                 ((exists e, (r, w') = (Raise e, w2)) \/
                  place pf (hdr_of originalfile) (hdr_of newfile) copy w2 = (r, w'))).
      { destruct (os_path_exists w1 _).
        - destruct (place pf _ _ copy w1) as [[[]|e2] w2] eqn:H2;
            apply place_link_frame in H2; exists w2; (split; [exact H2|]); eauto.
        - exists w1. split; [apply link_frame_refl|]. now right. }
      destruct H2 as (w2 & H2 & [[e Heq]|H3]).
      + injection Heq as _ ->.
        apply (link_frame_weaken ([newfile] ++ [mat_of newfile])); [names_in|].
        eapply link_frame_trans; eassumption.
      + apply place_link_frame in H3.
        apply (link_frame_weaken (([newfile] ++ [mat_of newfile]) ++ [hdr_of newfile]));
          [names_in|].
        eapply link_frame_trans; [eapply link_frame_trans|]; eassumption.
    - rewrite (copyfile_companion pf 1 _ _ _ _ E) in Hcopy.
      apply place_link_frame in Hcopy. eapply link_frame_weaken; [|exact Hcopy]. names_in. }
  destruct H as [Ha Hb]. split; [|assumption].
  intros k H1 H2 H3. apply Ha. rewrite !not_elem_of_cons. repeat split; try assumption.
  apply not_elem_of_nil.
Qed.
End LinkMode.

Lemma copyfile_link_frame_witness :
  let w := one_file (lit "/in/a.nii") (lit "bytes") in
  files (snd (copyfile plain_posix 2 (lit "/in/a.nii") (lit "/out/b.nii") false w))
    !! lit "/in/a.nii"
  = files w !! lit "/in/a.nii".
Proof.
  intros w.
  apply (copyfile_link_frame plain_posix false eq_refl (lit "/in/a.nii") (lit "/out/b.nii")
           w _ _ (surjective_pairing _));
    intros H; vm_compute in H; discriminate H.
Defined.

Section PlainFiles.
Variable pf : platform.

(** X7. In link mode, for a file that is no [.img]: whatever is under the
    destination name and is not a directory is replaced by a link to
    [originalfile], whether or not [originalfile] exists; a warning is logged
    exactly when something was there. *)
Theorem copyfile_link_overwrites (originalfile newfile : str) (w : world) :
  posix pf = true -> io_fault pf newfile = None ->
  files w !! newfile <> Some Directory ->
  endswith (lit ".img") originalfile = false ->
  copyfile pf 2 originalfile newfile false w
  = (Ok tt, {| files := <[newfile := Symlink originalfile]> (files w);
               warnings := warnings w ++ (if os_path_lexists w newfile
                                          then [WarnOverwrite newfile originalfile false]
                                          else []) |}).
Proof.
  intros Hposix Hfault Hdir Himg.
  rewrite (copyfile_companion pf 1 _ _ _ _ Himg). now apply place_link.
Qed.

(** X8. In link mode, [copyfile] of a file onto itself succeeds and loses
    the file: it is unlinked and replaced by a link to its own name, which
    leads nowhere, so the path no longer exists and cannot be read. *)
Theorem copyfile_self_link (f data : str) (w : world) :
  posix pf = true -> io_fault pf f = None -> files w !! f = Some (File data) ->
  endswith (lit ".img") f = false ->
  let r := copyfile pf 2 f f false w in
  fst r = Ok tt /\
  files (snd r) !! f = Some (Symlink f) /\
  os_path_exists (snd r) f = false /\
  read_file (files (snd r)) f = None.
Proof.
  intros Hposix Hfault Hfile Himg r. subst r.
  rewrite (copyfile_companion pf 1 _ _ _ _ Himg).
  rewrite (place_link pf f f w Hposix Hfault) by now rewrite Hfile.
  cbn [fst snd files].
  assert (Hl : <[f := Symlink f]> (files w) !! f = Some (Symlink f)) by apply lookup_insert_eq.
  assert (Hs : stat (<[f := Symlink f]> (files w)) f = None)
    by (unfold stat; now rewrite (follow_self _ _ _ Hl)).
  repeat split; [assumption| |].
  - unfold os_path_exists. cbn [files]. rewrite Hs. apply bool_decide_false. now intros [? ?].
  - unfold read_file. now rewrite Hs.
Qed.

(** A copy writes where the links of the destination lead. *)
Lemma place_copy_write (o n qo q data : str) (copy : bool) (w : world) :
  posix pf && negb copy = false ->
  io_fault pf o = None -> io_fault pf n = None ->
  stat (files w) o = Some (qo, File data) ->
  follow MAXSYMLINKS (files w) n = Some q ->
  files w !! q <> Some Directory -> q <> qo ->
  place pf o n copy w
  = (Ok tt, {| files := <[q := File data]> (files w);
               warnings := warnings w ++ (if os_path_lexists w n
                                          then [WarnOverwrite n o copy] else []) |}).
Proof.
  intros Hmode Hfo Hfn Ho Hn Hdir Hne. unfold place, bindM at 1.
  rewrite overwrite_warning_eq, Hmode.
  assert (Hsame : samefile (files w) o n = false).
  { unfold samefile. rewrite Ho. unfold stat. rewrite Hn.
    destruct (files w !! q); [|reflexivity]. apply bool_decide_false. congruence. }
  unfold try_shutil_copyfile, shutil_copyfile. cbn [files]. rewrite Hsame.
  unfold bindM, open_read. cbn [files]. rewrite Hfo, Ho.
  unfold open_write, with_files. cbn [files warnings]. rewrite Hfn, Hn.
  destruct (files w !! q) as [[]|]; try reflexivity. contradiction.
Qed.

(** X9. In copy mode, for a regular file that is no [.img] and a
    destination that is another name, free or a regular file: the
    destination holds the content of the original afterwards, nothing else
    changes, and a warning is logged exactly when the destination was
    there. *)
Theorem copyfile_copy_plain (originalfile newfile data : str) (copy : bool) (w : world) :
  posix pf && negb copy = false ->
  io_fault pf originalfile = None -> io_fault pf newfile = None ->
  files w !! originalfile = Some (File data) ->
  (files w !! newfile = None \/ exists old, files w !! newfile = Some (File old)) ->
  newfile <> originalfile ->
  endswith (lit ".img") originalfile = false ->
  copyfile pf 2 originalfile newfile copy w
  = (Ok tt, {| files := <[newfile := File data]> (files w);
               warnings := warnings w ++ (if os_path_lexists w newfile
                                          then [WarnOverwrite newfile originalfile copy]
                                          else []) |}).
Proof.
  intros Hmode Hfo Hfn Ho Hn Hne Himg. rewrite (copyfile_companion pf 1 _ _ _ _ Himg).
  apply (place_copy_write _ _ originalfile); try assumption.
  - now apply stat_file.
  - apply follow_here. intros t. destruct Hn as [->|[old ->]]; discriminate.
  - destruct Hn as [->|[old ->]]; discriminate.
Qed.

(** X10. In copy mode, a destination that is a link is not replaced: the
    content is written to the file the link leads to, which may be a file
    outside the destination directory, and the link stays. *)
Theorem copyfile_copy_through_link (originalfile newfile target data : str)
    (copy : bool) (w : world) :
  posix pf && negb copy = false ->
  io_fault pf originalfile = None -> io_fault pf newfile = None ->
  files w !! originalfile = Some (File data) ->
  files w !! newfile = Some (Symlink target) ->
  (files w !! target = None \/ exists old, files w !! target = Some (File old)) ->
  target <> originalfile ->
  endswith (lit ".img") originalfile = false ->
  copyfile pf 2 originalfile newfile copy w
  = (Ok tt, {| files := <[target := File data]> (files w);
               warnings := warnings w ++ [WarnOverwrite newfile originalfile copy] |}).
Proof.
  intros Hmode Hfo Hfn Ho Hn Ht Hne Himg. rewrite (copyfile_companion pf 1 _ _ _ _ Himg).
  rewrite (place_copy_write _ _ originalfile target data); try assumption.
  - unfold os_path_lexists. now rewrite bool_decide_true by (rewrite Hn; eauto).
  - now apply stat_file.
  - unfold MAXSYMLINKS. rewrite follow_S, Hn. apply follow_here.
    intros t. destruct Ht as [->|[old ->]]; discriminate.
  - destruct Ht as [->|[old ->]]; discriminate.
Qed.

(** X11. In copy mode, when source and destination are one and the same
    file, [copyfile] does not fail: the [shutil.Error] is caught, its message
    is logged after the warning about the existing destination, and no file
    changes. *)
Theorem copyfile_same_file (originalfile newfile : str) (copy : bool) (w : world) :
  posix pf && negb copy = false ->
  samefile (files w) originalfile newfile = true ->
  endswith (lit ".img") originalfile = false ->
  exists msg,
    copyfile pf 2 originalfile newfile copy w
    = (Ok tt, {| files := files w;
                 warnings := warnings w ++ [WarnOverwrite newfile originalfile copy;
                                            WarnMessage msg] |}).
Proof.
  intros Hmode Hsame Himg. rewrite (copyfile_companion pf 1 _ _ _ _ Himg).
  unfold place, bindM at 1. rewrite overwrite_warning_eq, Hmode.
  unfold try_shutil_copyfile, shutil_copyfile. cbn [files]. rewrite Hsame.
  assert (Hex : os_path_lexists w newfile = true).
  { unfold os_path_lexists. apply bool_decide_true.
    unfold samefile, stat in Hsame.
    destruct (follow MAXSYMLINKS (files w) originalfile) as [q1|]; [|discriminate].
    destruct (files w !! q1); [|discriminate].
    destruct (follow MAXSYMLINKS (files w) newfile) as [q2|] eqn:Hf; [|discriminate].
    destruct (files w !! q2) eqn:Hq2; [|discriminate].
    destruct (files w !! newfile) eqn:Hn; [eauto|exfalso].
    rewrite follow_here in Hf by (rewrite Hn; discriminate). injection Hf as <-. congruence. }
  rewrite Hex. eexists. unfold warn. cbn [files warnings]. now rewrite <- app_assoc.
Qed.
End PlainFiles.

Lemma copyfile_link_overwrites_witness :
  fst (copyfile plain_posix 2 (lit "/in/a.nii") (lit "/out/b.nii") false
         (one_file (lit "/out/b.nii") (lit "old")))
  = Ok tt.
Proof.
  rewrite (copyfile_link_overwrites plain_posix (lit "/in/a.nii") (lit "/out/b.nii")
             (one_file (lit "/out/b.nii") (lit "old"))).
  - reflexivity.
  - reflexivity.
  - reflexivity.
  - vm_compute. discriminate.
  - vm_compute. reflexivity.
Defined.

Lemma copyfile_self_link_witness :
  read_file
    (files (snd (copyfile plain_posix 2 (lit "/in/a.nii") (lit "/in/a.nii") false
                   (one_file (lit "/in/a.nii") (lit "bytes")))))
    (lit "/in/a.nii")
  = None.
Proof.
  apply (copyfile_self_link plain_posix (lit "/in/a.nii") (lit "bytes")
           (one_file (lit "/in/a.nii") (lit "bytes"))).
  - reflexivity.
  - reflexivity.
  - vm_compute. reflexivity.
  - vm_compute. reflexivity.
Defined.

Lemma copyfile_copy_plain_witness :
  fst (copyfile plain_posix 2 (lit "/in/a.nii") (lit "/out/b.nii") true
         (one_file (lit "/in/a.nii") (lit "bytes")))
  = Ok tt.
Proof.
  rewrite (copyfile_copy_plain plain_posix (lit "/in/a.nii") (lit "/out/b.nii") (lit "bytes")
             true (one_file (lit "/in/a.nii") (lit "bytes"))).
  - reflexivity.
  - reflexivity.
  - reflexivity.
  - reflexivity.
  - vm_compute. reflexivity.
  - left. vm_compute. reflexivity.
  - discriminate.
  - vm_compute. reflexivity.
Defined.

Lemma copyfile_copy_through_link_witness :
  fst (copyfile plain_posix 2 (lit "/in/a.nii") (lit "/out/b.nii") true linked_world) = Ok tt.
Proof.
  rewrite (copyfile_copy_through_link plain_posix (lit "/in/a.nii") (lit "/out/b.nii")
             (lit "/raw/orig.nii") (lit "new") true linked_world).
  - reflexivity.
  - reflexivity.
  - reflexivity.
  - reflexivity.
  - vm_compute. reflexivity.
  - vm_compute. reflexivity.
  - right. exists (lit "precious"). vm_compute. reflexivity.
  - discriminate.
  - vm_compute. reflexivity.
Defined.

Lemma copyfile_same_file_witness :
  exists msg,
    copyfile plain_posix 2 (lit "/in/a.nii") (lit "/in/a.nii") true
      (one_file (lit "/in/a.nii") (lit "bytes"))
    = (Ok tt, {| files := files (one_file (lit "/in/a.nii") (lit "bytes"));
                 warnings := warnings (one_file (lit "/in/a.nii") (lit "bytes"))
                             ++ [WarnOverwrite (lit "/in/a.nii") (lit "/in/a.nii") true;
                                 WarnMessage msg] |}).
Proof.
  apply (copyfile_same_file plain_posix (lit "/in/a.nii") (lit "/in/a.nii") true
           (one_file (lit "/in/a.nii") (lit "bytes"))).
  - reflexivity.
  - vm_compute. reflexivity.
  - vm_compute. reflexivity.
Defined.

(** * Properties of copyfiles *)

Section Copyfiles.
Variable pf : platform.
Variable abspath : str -> str.

Lemma copyfiles_loop_names (outs : list str) (copy : bool) (filelist : list str) :
  1 < length outs ->
  forall (i : nat) (newfiles : list str) (w w' : world) (res : list str),
    copyfiles_loop pf abspath (Some outs) copy i filelist newfiles w = (Ok res, w') ->
    i <= length outs ->
    res = newfiles ++ take (length filelist) (drop i outs) /\
    i + length filelist <= length outs.
Proof.
  intros Hlen. induction filelist as [|f rest IH]; intros i newfiles w w' res Hloop Hi.
  - injection Hloop as <- _. cbn [length take]. rewrite app_nil_r. split; [reflexivity|lia].
  - cbn [copyfiles_loop] in Hloop. rewrite decide_True in Hloop by assumption.
    destruct (outs !! i) as [d|] eqn:Hd; [|discriminate]. unfold bindM in Hloop.
    destruct (copyfile pf 2 f d copy w) as [[[]|e] w1]; [|discriminate].
    pose proof (lookup_lt_Some _ _ _ Hd) as Hlt.
    destruct (IH _ _ _ _ _ Hloop ltac:(lia)) as [-> Hle]. split.
    + cbn [length]. rewrite (drop_S _ _ _ Hd). cbn [take]. now rewrite <- app_assoc.
    + cbn [length]. lia.
Qed.

Lemma copyfiles_loop_directory (o : str) (copy : bool) (filelist : list str) :
  forall (i : nat) (newfiles : list str) (w w' : world) (res : list str),
    copyfiles_loop pf abspath (Some [o]) copy i filelist newfiles w = (Ok res, w') ->
    res = newfiles
          ++ map (fun f => fname_presuffix abspath f [] [] (Some o) true) filelist.
Proof.
  induction filelist as [|f rest IH]; intros i newfiles w w' res Hloop.
  - injection Hloop as <- _. cbn [map]. now rewrite app_nil_r.
  - cbn [copyfiles_loop] in Hloop. rewrite decide_False in Hloop by (cbn; lia).
    unfold bindM in Hloop.
    destruct (copyfile pf 2 f _ copy w) as [[[]|e] w1]; [|discriminate].
    rewrite (IH _ _ _ _ _ Hloop). cbn [map]. now rewrite <- app_assoc.
Qed.

Lemma copyfiles_loop_nowhere (outfiles : option (list str)) (copy : bool)
    (filelist : list str) (i : nat) (newfiles : list str) (w w' : world) (res : list str) :
  outfiles = None \/ outfiles = Some [] ->
  copyfiles_loop pf abspath outfiles copy i filelist newfiles w = (Ok res, w') ->
  filelist = [] /\ res = newfiles.
Proof.
  intros Hout Hloop. destruct filelist as [|f rest].
  - now injection Hloop as <- _.
  - destruct Hout as [-> | ->]; discriminate.
Qed.

(** X12. What [copyfiles] returns when it returns: with two or more
    destination names, the first names, one for each file, and there were
    at least as many names as files; with one destination, for each file
    the name [fname_presuffix] gives it in that directory; with an empty
    destination list, or a destination that is neither a string nor a
    list, there was no file and the result is empty. *)
Theorem copyfiles_result (filelist dest : path_arg) (copy : bool) (w w' : world)
    (newfiles : list str) :
  copyfiles pf abspath filelist dest copy w = (Ok newfiles, w') ->
  exists fl,
    filename_to_list filelist = Some fl /\
    match filename_to_list dest with
    | Some (o1 :: o2 :: outs) =>
        length fl <= length (o1 :: o2 :: outs) /\
        newfiles = take (length fl) (o1 :: o2 :: outs)
    | Some [o] =>
        newfiles = map (fun f => fname_presuffix abspath f [] [] (Some o) true) fl
    | _ => fl = [] /\ newfiles = []
    end.
Proof.
  unfold copyfiles. destruct (filename_to_list filelist) as [fl|]; [|discriminate].
  intros Hloop. exists fl. split; [reflexivity|].
  destruct (filename_to_list dest) as [[|o1 [|o2 outs]]|].
  - eapply copyfiles_loop_nowhere; [|exact Hloop]. now right.
  - now apply copyfiles_loop_directory in Hloop.
  - apply copyfiles_loop_names in Hloop as [-> Hle]; cbn [length] in *; try lia.
    now rewrite drop_0.
  - eapply copyfiles_loop_nowhere; [|exact Hloop]. now left.
Qed.
End Copyfiles.

Lemma copyfiles_result_witness :
  exists fl,
    filename_to_list (PathList [lit "/in/a.nii"; lit "/in/b.nii"]) = Some fl /\
    [lit "/out/a.nii"; lit "/out/b.nii"]
    = map (fun f => fname_presuffix (fun p => p) f [] [] (Some (lit "/out")) true) fl.
Proof.
  apply (copyfiles_result plain_posix (fun p => p)
           (PathList [lit "/in/a.nii"; lit "/in/b.nii"]) (PathList [lit "/out"]) false
           {| files := ∅; warnings := [] |}
           (snd (copyfiles plain_posix (fun p => p)
                   (PathList [lit "/in/a.nii"; lit "/in/b.nii"]) (PathList [lit "/out"])
                   false {| files := ∅; warnings := [] |}))).
  vm_compute. reflexivity.
Defined.

(** * Properties of hash_infile *)

Section HashInfile.
Variable pf : platform.
Variable md5_state : Type.
Variable md5 : md5_state.
Variable md5_update : md5_state -> str -> md5_state.
Variable md5_hexdigest : md5_state -> str.

(** Feeding an md5 object piece by piece is feeding it the whole. *)
Hypothesis md5_update_app :
  forall s a b, md5_update (md5_update s a) b = md5_update s (a ++ b).

Lemma hash_loop_whole (chunk_len : Z) (fuel : nat) :
  chunk_len <> 0%Z ->
  forall (rest : str) (md5obj : md5_state),
    length rest < fuel ->
    hash_loop md5_state md5_update fuel chunk_len rest md5obj
    = match rest with
      | [] => md5obj
      | _ => md5_update md5obj rest
      end.
Proof using md5_update_app.
  intros Hchunk. induction fuel as [|n IH]; intros rest md5obj Hlen; [lia|].
  cbn [hash_loop]. unfold fp_read. destruct (chunk_len <? 0)%Z eqn:Hneg.
  - destruct rest as [|c rest]; [reflexivity|].
    rewrite IH by (cbn [length] in *; lia). reflexivity.
  - apply Z.ltb_ge in Hneg.
    destruct (Z.to_nat chunk_len) as [|k] eqn:Hk; [lia|].
    destruct rest as [|c rest]; [reflexivity|]. cbn [take drop].
    rewrite IH by (rewrite length_drop; cbn [length] in Hlen; lia).
    destruct (drop k rest) eqn:Hdrop.
    + rewrite <- (take_drop k rest) at 2. now rewrite Hdrop, app_nil_r.
    + rewrite md5_update_app, <- Hdrop. cbn [app]. now rewrite take_drop.
Qed.

(** X13. For a file that can be read, and an md5 object for which feeding
    piece by piece is feeding the whole: with any chunk length but 0,
    [hash_infile] returns the digest of the whole content, whatever the
    chunk length (a negative one reads all at once; an empty file gets the
    digest of the fresh object); with chunk length 0 the first read is
    empty and it returns the digest of the fresh object, whatever the
    content. The files are left as they were. *)
Theorem hash_infile_digest (afile content : str) (chunk_len : Z) (w : world) :
  io_fault pf afile = None -> read_file (files w) afile = Some content ->
  (chunk_len <> 0%Z ->
   hash_infile pf md5_state md5 md5_update md5_hexdigest afile chunk_len w
   = (Ok (Some (md5_hexdigest match content with
                              | [] => md5
                              | _ => md5_update md5 content
                              end)), w)) /\
  hash_infile pf md5_state md5 md5_update md5_hexdigest afile 0 w
  = (Ok (Some (md5_hexdigest md5)), w).
Proof using md5_update_app.
  intros Hfault Hread. unfold hash_infile, os_path_isfile, open_read.
  unfold read_file in Hread. rewrite Hfault.
  destruct (stat (files w) afile) as [[q [data| |]]|]; try discriminate.
  injection Hread as ->. split.
  - intros Hchunk. now rewrite hash_loop_whole by (assumption || lia).
  - cbn [hash_loop]. unfold fp_read. cbn. reflexivity.
Qed.
End HashInfile.

(** A path that is no regular file, or does not exist, has no hash. *)
Lemma hash_infile_not_a_file (pf : platform) (md5_state : Type) (md5 : md5_state)
    (md5_update : md5_state -> str -> md5_state) (md5_hexdigest : md5_state -> str)
    (afile : str) (chunk_len : Z) (w : world) :
  read_file (files w) afile = None ->
  hash_infile pf md5_state md5 md5_update md5_hexdigest afile chunk_len w = (Ok None, w).
Proof.
  unfold hash_infile, os_path_isfile, read_file.
  destruct (stat (files w) afile) as [[q [data| |]]|]; (discriminate || reflexivity).
Qed.

Lemma hash_infile_digest_witness :
  hash_infile plain_posix str [] (fun s a => s ++ a) (fun s => s) (lit "/in/a.nii") 2
    (one_file (lit "/in/a.nii") (lit "bytes"))
  = (Ok (Some (lit "bytes")), one_file (lit "/in/a.nii") (lit "bytes")).
Proof.
  apply (hash_infile_digest plain_posix str [] (fun s a => s ++ a) (fun s => s)
           (fun s a b => eq_sym (app_assoc s a b))
           (lit "/in/a.nii") (lit "bytes") 2 (one_file (lit "/in/a.nii") (lit "bytes"))).
  - reflexivity.
  - vm_compute. reflexivity.
  - discriminate.
Defined.

(** * Further properties of the RAM estimator *)

Lemma step_lines_single (disk : str -> image_file) (inputs : gmap str pyval)
    (attr : str) (multiplier : Q) :
  exists line, step_lines disk inputs (attr, multiplier) = [line]
               /\ line_attr line = Some attr.
Proof.
  unfold step_lines, process_input. break_step; eexists; split; reflexivity.
Qed.

Lemma flat_map_step_lines (disk : str -> image_file) (inputs : gmap str pyval)
    (items : list (str * Q)) :
  map line_attr (flat_map (step_lines disk inputs) items)
  = map (fun item => Some (fst item)) items.
Proof.
  induction items as [|[attr multiplier] items IH]; [reflexivity|].
  cbn [flat_map map fst]. rewrite map_app, IH.
  destruct (step_lines_single disk inputs attr multiplier) as (line & -> & Hattr).
  cbn [map app]. now rewrite Hattr.
Qed.

(** X14. The debug lines of an estimate: one line for each weight, in the
    order of the weights, each about the attribute of its weight; then the
    line with the overhead and the total before clamping; then, last, the
    line with the clamped value, which is the value returned. *)
Theorem estimate_trail_order (disk : str -> image_file) (self : RamEstimator)
    (inputs : gmap str pyval) :
  exists lines,
    snd (estimate disk self inputs)
    = lines ++ [OverheadLine (overhead_gb self) (raw_total disk self inputs);
                ClampLine (fst (estimate disk self inputs))] /\
    map line_attr lines = map (fun item => Some (fst item)) (input_multipliers self).
Proof.
  exists (flat_map (step_lines disk inputs) (input_multipliers self)).
  split; [apply estimate_lines|apply flat_map_step_lines].
Qed.

Ltac clamp_opts :=
  unfold clamp;
  repeat match goal with
         | |- context [match ?o with Some _ => _ | None => _ end] => destruct o
         end;
  repeat match goal with
  | |- context [py_max ?a ?b] =>
      lazymatch b with
      | context [py_max _ _] => fail
      | context [py_min _ _] => fail
      | _ => let H := fresh in let E := fresh in
             destruct (py_max_cases a b) as [[H E]|[H E]]; rewrite E in *; clear E
      end
  | |- context [py_min ?a ?b] =>
      lazymatch b with
      | context [py_max _ _] => fail
      | context [py_min _ _] => fail
      | _ => let H := fresh in let E := fresh in
             destruct (py_min_cases a b) as [[H E]|[H E]]; rewrite E in *; clear E
      end
  end.

(** X15. Clamping twice with the same bounds is clamping once, for any
    bounds, set or not, also for a lower bound above the upper one. *)
Theorem clamp_idempotent (value : Q) (min_val max_val : option Q) :
  (clamp (clamp value min_val max_val) min_val max_val == clamp value min_val max_val)%Q.
Proof. clamp_opts; lra. Qed.

(** X16. [clamp] keeps the order: of two values the clamped smaller one is
    at most the clamped larger one, for any bounds. *)
Theorem clamp_monotone (v1 v2 : Q) (min_val max_val : option Q) :
  (v1 <= v2)%Q -> (clamp v1 min_val max_val <= clamp v2 min_val max_val)%Q.
Proof. intros H. clamp_opts; lra. Qed.

Lemma clamp_monotone_witness : (clamp 1 (Some (1 # 2)) None <= clamp 9 (Some (1 # 2)) None)%Q.
Proof. apply clamp_monotone. intro H. discriminate H. Defined.

Lemma clamp_Qeq (v1 v2 : Q) (min_val max_val : option Q) :
  (v1 == v2)%Q -> (clamp v1 min_val max_val == clamp v2 min_val max_val)%Q.
Proof. intros H. clamp_opts; lra. Qed.

Lemma estimate_mem_gb (disk : str -> image_file) (self : RamEstimator)
    (inputs : gmap str pyval) :
  fst (estimate disk self inputs)
  = clamp (raw_total disk self inputs) (min_gb self) (max_gb self).
Proof.
  unfold estimate, raw_total.
  destruct (contributions disk self inputs) as [total_gb debug_lines]. reflexivity.
Qed.

Lemma no_input_contribution (disk : str -> image_file) (inputs : gmap str pyval)
    (attr : str) (multiplier : Q) :
  no_input inputs attr -> (input_contribution disk inputs (attr, multiplier) == 0)%Q.
Proof.
  intros H. rewrite input_contribution_value.
  destruct H as [-> | [-> | ->]]; reflexivity.
Qed.

Lemma sum_floats_zero (A : Type) (f : A -> Q) (l : list A) :
  Forall (fun x => (f x == 0)%Q) l -> (sum_floats (map f l) == 0)%Q.
Proof.
  induction 1 as [|x l Hx _ IH]; [reflexivity|].
  cbn [map]. rewrite sum_floats_cons. lra.
Qed.

(** X18. When every weighted attribute is missing from the traits, undefined
    or [None], the total is the overhead and the estimate is the clamped
    overhead. *)
Theorem estimate_without_inputs (disk : str -> image_file) (self : RamEstimator)
    (inputs : gmap str pyval) :
  Forall (fun item => no_input inputs (fst item)) (input_multipliers self) ->
  (raw_total disk self inputs == overhead_gb self)%Q /\
  (fst (estimate disk self inputs)
   == clamp (overhead_gb self) (min_gb self) (max_gb self))%Q.
Proof.
  intros H.
  assert (Hraw : (raw_total disk self inputs == overhead_gb self)%Q).
  { rewrite raw_total_sum, sum_floats_zero; [ring|].
    induction H as [|[attr multiplier] items Hitem _ IH]; constructor; [|assumption].
    now apply no_input_contribution. }
  split; [assumption|]. rewrite estimate_mem_gb. now apply clamp_Qeq.
Qed.

Lemma estimate_without_inputs_witness :
  (raw_total one_volume flirt ∅ == overhead_gb flirt)%Q.
Proof.
  apply (estimate_without_inputs one_volume flirt ∅).
  repeat constructor.
Defined.

Lemma fold_left_pointwise (A B : Type) (f g : A -> B -> A) (l : list B) (a : A) :
  (forall a x, f a x = g a x) -> fold_left f l a = fold_left g l a.
Proof.
  intros H. revert a. induction l as [|x l IH]; intros a; [reflexivity|].
  cbn [fold_left]. now rewrite H, IH.
Qed.

(** The estimate looks at the inputs through [process_input] only. *)
Lemma estimate_pointwise (disk : str -> image_file) (self : RamEstimator)
    (i1 i2 : gmap str pyval) :
  (forall state item, process_input disk i1 state item = process_input disk i2 state item) ->
  estimate disk self i1 = estimate disk self i2.
Proof.
  intros H. unfold estimate, contributions.
  now rewrite (fold_left_pointwise _ _ _ _ (input_multipliers self) (0%Q, []) H).
Qed.

Lemma strings_of_strings (ss : list str) : strings_of (SStr <$> ss) = ss.
Proof.
  unfold strings_of. induction ss as [|s ss IH]; [reflexivity|].
  cbn. now rewrite IH.
Qed.

Lemma existsb_is_str (l : list scalar) :
  existsb is_str l = bool_decide (strings_of l <> []).
Proof.
  unfold strings_of. induction l as [|x l IH]; [reflexivity|].
  cbn [existsb omap list_omap]. destruct x; cbn [is_str orb]; try exact IH.
  symmetry. now apply bool_decide_true.
Qed.

(** X19. A list or tuple that holds at least one string counts as a list
    of paths: what else it holds, numbers included, is ignored, and the
    estimate with its debug lines is that of the strings alone. *)
Theorem mixed_sequence_strings_only (disk : str -> image_file) (self : RamEstimator)
    (inputs : gmap str pyval) (attr : str) (l : list scalar) :
  existsb is_str l = true ->
  estimate disk self (<[attr := PyList l]> inputs)
  = estimate disk self (<[attr := PyList (SStr <$> strings_of l)]> inputs) /\
  estimate disk self (<[attr := PyTuple l]> inputs)
  = estimate disk self (<[attr := PyTuple (SStr <$> strings_of l)]> inputs).
Proof.
  intros Hstr.
  assert (Hstr' : existsb is_str (SStr <$> strings_of l) = true).
  { rewrite existsb_is_str in *. now rewrite strings_of_strings. }
  split; apply estimate_pointwise; intros [total_gb debug_lines] [a multiplier];
    unfold process_input;
    (destruct (decide (attr = a)) as [<-|Hne];
     [rewrite !lookup_insert_eq; cbn [paths_of]; now rewrite Hstr, Hstr', strings_of_strings
     |now rewrite !lookup_insert_ne by assumption]).
Qed.

Lemma mixed_sequence_strings_only_witness :
  estimate one_volume flirt
    (<[lit "in_file" := PyList [SStr (lit "/data/vol.nii"); SInt 3]]> flirt_inputs)
  = estimate one_volume flirt
      (<[lit "in_file" := PyList (SStr <$> strings_of [SStr (lit "/data/vol.nii"); SInt 3])]>
         flirt_inputs).
Proof.
  apply (mixed_sequence_strings_only one_volume flirt flirt_inputs (lit "in_file")
           [SStr (lit "/data/vol.nii"); SInt 3]).
  reflexivity.
Defined.

Lemma scan_paths_app (disk : str -> image_file) (l1 l2 : list str) :
  scan_paths disk (l1 ++ l2)
  = ((fst (scan_paths disk l1) + fst (scan_paths disk l2))%Z,
     (snd (scan_paths disk l1) + snd (scan_paths disk l2))%Z).
Proof.
  unfold scan_paths.
  set (f := fun '(vox_total, valid_files) p => _).
  assert (H : forall l v n, fold_left f l (v, n)
            = ((v + fst (fold_left f l (0, 0)))%Z, (n + snd (fold_left f l (0, 0)))%Z)).
  { assert (Hf : forall v n p, f (v, n) p
              = ((v + fst (f (0, 0)%Z p))%Z, (n + snd (f (0, 0)%Z p))%Z)).
    { intros v n p. subst f. cbn beta iota. unfold voxels.
      destruct (disk p); cbn [fst snd]; f_equal; lia. }
    induction l as [|p l IH]; intros v n; cbn [fold_left fst snd].
    - f_equal; lia.
    - rewrite (Hf v n p), IH. rewrite (surjective_pairing (f (0, 0)%Z p)) at 3 4.
      rewrite (IH (fst (f (0, 0)%Z p))). cbn [fst snd]. f_equal; lia. }
  rewrite fold_left_app.
  destruct (fold_left f l1 (0, 0)%Z) as [v n]. now rewrite (H l2).
Qed.

Lemma scan_paths_skip (disk : str -> image_file) (l1 l2 : list str) (p : str) :
  disk p = Missing \/ disk p = Unreadable ->
  scan_paths disk (l1 ++ p :: l2) = scan_paths disk (l1 ++ l2).
Proof.
  intros Hp. rewrite !scan_paths_app. change (p :: l2) with ([p] ++ l2).
  rewrite (scan_paths_app disk [p] l2).
  assert (Hone : scan_paths disk [p] = (0, 0)%Z).
  { unfold scan_paths, voxels. cbn [fold_left]. now destruct Hp as [-> | ->]. }
  rewrite Hone. reflexivity.
Qed.

Lemma string_list_contribution (disk : str -> image_file) (paths : list str)
    (multiplier : Q) :
  (value_contribution disk (PyList (SStr <$> paths)) multiplier
   == if (0 <? snd (scan_paths disk paths))%Z
      then inject_Z (fst (scan_paths disk paths)) * multiplier / inject_Z (1024 ^ 3)
      else 0)%Q.
Proof.
  unfold value_contribution. cbn [paths_of]. rewrite existsb_is_str, strings_of_strings.
  destruct paths as [|p paths].
  - cbn. ring.
  - rewrite bool_decide_true by done. reflexivity.
Qed.

Lemma sum_floats_Qeq (A : Type) (f g : A -> Q) (l : list A) :
  (forall x, (f x == g x)%Q) -> (sum_floats (map f l) == sum_floats (map g l))%Q.
Proof.
  intros H. induction l as [|x l IH]; [reflexivity|].
  cbn [map]. rewrite !sum_floats_cons, IH, (H x). reflexivity.
Qed.

(** X20. A path that does not exist, or that cannot be loaded as an image,
    adds nothing: the total is the same with and without it in a list of
    paths. *)
Theorem unreadable_path_ignored (disk : str -> image_file) (self : RamEstimator)
    (inputs : gmap str pyval) (attr : str) (l1 l2 : list str) (p : str) :
  disk p = Missing \/ disk p = Unreadable ->
  (raw_total disk self (<[attr := PyList (SStr <$> l1 ++ p :: l2)]> inputs)
   == raw_total disk self (<[attr := PyList (SStr <$> l1 ++ l2)]> inputs))%Q.
Proof.
  intros Hp. rewrite !raw_total_sum. apply Qplus_inj_r. apply sum_floats_Qeq.
  intros [a multiplier]. rewrite !input_contribution_value.
  destruct (decide (attr = a)) as [<-|Hne].
  - rewrite !lookup_insert_eq, !string_list_contribution.
    now rewrite (scan_paths_skip disk l1 l2 p Hp).
  - now rewrite !lookup_insert_ne by assumption.
Qed.

Lemma unreadable_path_ignored_witness :
  (raw_total one_volume flirt
     (<[lit "in_file" := PyList (SStr <$> [lit "/data/vol.nii"] ++ lit "/data/notes.txt" :: [])]>
        flirt_inputs)
   == raw_total one_volume flirt
        (<[lit "in_file" := PyList (SStr <$> [lit "/data/vol.nii"] ++ [])]> flirt_inputs))%Q.
Proof.
  apply (unreadable_path_ignored one_volume flirt flirt_inputs (lit "in_file")
           [lit "/data/vol.nii"] [] (lit "/data/notes.txt")).
  left. reflexivity.
Defined.

Lemma scan_paths_nonneg (disk : str -> image_file) (paths : list str) :
  (forall p shape, disk p = Image shape -> (0 <= spatial_voxels shape)%Z) ->
  (0 <= fst (scan_paths disk paths))%Z.
Proof.
  intros Hd. induction paths as [|p paths IH] using rev_ind; [reflexivity|].
  rewrite scan_paths_app. cbn [fst].
  assert (0 <= fst (scan_paths disk [p]))%Z; [|lia].
  unfold scan_paths, voxels. cbn [fold_left].
  destruct (disk p) eqn:E; cbn [fst]; try lia. specialize (Hd p shape E). lia.
Qed.

Lemma sum_floats_nonneg (l : list Q) :
  Forall (fun q => (0 <= q)%Q) l -> (0 <= sum_floats l)%Q.
Proof.
  induction 1 as [|q l Hq _ IH]; [apply Qle_refl|]. rewrite sum_floats_cons. lra.
Qed.

Lemma numbers_nonneg (l : list scalar) :
  Forall nonneg_scalar l -> Forall (fun q => (0 <= q)%Q) (omap as_number l).
Proof.
  induction 1 as [|x l Hx _ IH]; [constructor|]. cbn [omap list_omap].
  destruct (as_number x) as [q|] eqn:E; [|assumption]. constructor; [|assumption].
  now apply Hx.
Qed.

Lemma value_contribution_nonneg (disk : str -> image_file) (val : pyval) (multiplier : Q) :
  (0 <= multiplier)%Q ->
  (forall p shape, disk p = Image shape -> (0 <= spatial_voxels shape)%Z) ->
  nonneg_val val -> (0 <= value_contribution disk val multiplier)%Q.
Proof.
  intros Hm Hd Hv. unfold value_contribution. destruct (paths_of val) as [paths|].
  - destruct (0 <? _)%Z; [|apply Qle_refl].
    apply Qle_shift_div_l; [reflexivity|]. rewrite Qmult_0_l.
    apply Qmult_le_0_compat; [|assumption].
    change 0%Q with (inject_Z 0). rewrite <- Zle_Qle. now apply scan_paths_nonneg.
  - destruct (values_of val) as [values|] eqn:E; [|apply Qle_refl].
    apply Qmult_le_0_compat; [|assumption]. apply sum_floats_nonneg, numbers_nonneg.
    destruct val as [|x|l|l]; cbn [values_of nonneg_val] in *.
    + discriminate.
    + destruct (as_number x); [|discriminate]. injection E as <-. now constructor.
    + destruct (forallb _ l); [|discriminate]. now injection E as <-.
    + destruct (forallb _ l); [|discriminate]. now injection E as <-.
Qed.

(** X21. With no negative weight, no negative number among the inputs and
    no image of a negative voxel count, the total before clamping is at
    least the overhead. *)
Theorem estimate_at_least_overhead (disk : str -> image_file) (self : RamEstimator)
    (inputs : gmap str pyval) :
  nonneg_multipliers self ->
  (forall p shape, disk p = Image shape -> (0 <= spatial_voxels shape)%Z) ->
  (forall attr val, inputs !! attr = Some val -> nonneg_val val) ->
  (overhead_gb self <= raw_total disk self inputs)%Q.
Proof.
  intros Hm Hd Hi. rewrite raw_total_sum.
  assert (0 <= sum_floats (map (input_contribution disk inputs) (input_multipliers self)))%Q;
    [|lra].
  apply sum_floats_nonneg. unfold nonneg_multipliers in Hm.
  induction Hm as [|[attr multiplier] items Hitem _ IH]; [constructor|].
  cbn [map]. constructor; [|assumption]. rewrite input_contribution_value.
  destruct (inputs !! attr) as [val|] eqn:E; [|apply Qle_refl].
  apply value_contribution_nonneg; eauto.
Qed.

Lemma estimate_at_least_overhead_witness :
  (overhead_gb flirt <= raw_total one_volume flirt flirt_inputs)%Q.
Proof.
  apply (estimate_at_least_overhead one_volume flirt flirt_inputs).
  - repeat constructor; discriminate.
  - intros p shape. unfold one_volume. destruct (decide _); [|discriminate].
    intros [= <-]. discriminate.
  - intros attr val. unfold flirt_inputs.
    intros [[_ <-]|[_ [_ <-]%lookup_singleton_Some]]%lookup_insert_Some.
    + intros q H. discriminate H.
    + exact I.
Defined.
